(** * Command contributions: validation, normalisation, registry, action

    A shallow embedding of
    [src/vs/platform/actions/common/commandsExtensionPoint.ts] and the
    properties of its validator, its registry and its command action. *)

From Stdlib Require Import String Ascii List ZArith Bool Lia.
Import ListNotations.
Open Scope string_scope.
Open Scope list_scope.

Set Implicit Arguments.
Set Warnings "-register-all".

(** ** JavaScript values

    Contributions are read from extension manifests, so a declared value is
    a tree: a primitive, an array, or an object given by its own data
    properties in insertion order.  Two positions of such a tree never share
    an object.  Numbers are observed by this file only through [typeof] and
    truthiness, for which an integer payload is enough. *)

Module JS.

Inductive Value : Type :=
| VUndefined
| VNull
| VBool (b : bool)
| VNumber (n : Z)
| VString (s : string)
| VArray (elements : list Value)
| VObject (properties : list (string * Value)).

(** The answers of the [typeof] operator that these values can give. *)
Inductive Type_ : Type :=
| TUndefined | TObject | TBoolean | TNumber | TString.

Definition typeof (v : Value) : Type_ :=
  match v with
  | VUndefined => TUndefined
  | VNull => TObject
  | VBool _ => TBoolean
  | VNumber _ => TNumber
  | VString _ => TString
  | VArray _ => TObject
  | VObject _ => TObject
  end.

Definition Type_eqb (a b : Type_) : bool :=
  match a, b with
  | TUndefined, TUndefined | TObject, TObject | TBoolean, TBoolean
  | TNumber, TNumber | TString, TString => true
  | _, _ => false
  end.

(** ToBoolean: what [!x] and [x && ...] test. *)
Definition truthy (v : Value) : bool :=
  match v with
  | VUndefined | VNull => false
  | VBool b => b
  | VNumber n => negb (n =? 0)%Z
  | VString s => negb (s =? "")
  | VArray _ | VObject _ => true
  end.

(** Own data property lookup in a property list. *)
Fixpoint lookup (k : string) (ps : list (string * Value)) : Value :=
  match ps with
  | [] => VUndefined
  | (k', v) :: rest => if k =? k' then v else lookup k rest
  end.

(** Property assignment in a property list: overwrite in place, or append. *)
Fixpoint assign (k : string) (v : Value) (ps : list (string * Value))
  : list (string * Value) :=
  match ps with
  | [] => [(k, v)]
  | (k', v') :: rest =>
      if k =? k' then (k, v) :: rest else (k', v') :: assign k v rest
  end.

(** [x.k] for a value [x] that is neither [undefined] nor [null].  The names
    read by this file ([command], [title], [category], [icon], [dark],
    [light]) are not defined on any prototype nor on arrays and strings, so
    only objects answer with something else than [undefined]. *)
Definition prop (x : Value) (k : string) : Value :=
  match x with
  | VObject ps => lookup k ps
  | _ => VUndefined
  end.

(** [x.k = v] on an object. The code of this file assigns only to values on
    which it has just read a string-typed property, hence to objects. *)
Definition setProp (x : Value) (k : string) (v : Value) : Value :=
  match x with
  | VObject ps => VObject (assign k v ps)
  | _ => x
  end.

(** The string carried by a value of type string. *)
Definition stringOf (v : Value) : string :=
  match v with VString s => s | _ => "" end.

(** Strict equality of a string literal with a value. *)
Definition strictEqString (lit : string) (v : Value) : bool :=
  match v with VString s => lit =? s | _ => false end.

(** [Array.prototype.indexOf] on an array of string literals. *)
Fixpoint indexOfFrom (i : Z) (lits : list string) (v : Value) : Z :=
  match lits with
  | [] => (-1)%Z
  | lit :: rest =>
      if strictEqString lit v then i else indexOfFrom (i + 1)%Z rest v
  end.

Definition indexOf (lits : list string) (v : Value) : Z :=
  indexOfFrom 0%Z lits v.

(** Induction over values that reaches inside arrays and objects. *)
Section ValueInd.
Variable P : Value -> Prop.
Hypothesis Hundef : P VUndefined.
Hypothesis Hnull : P VNull.
Hypothesis Hbool : forall b, P (VBool b).
Hypothesis Hnum : forall n, P (VNumber n).
Hypothesis Hstr : forall s, P (VString s).
Hypothesis Harr : forall l, Forall P l -> P (VArray l).
Hypothesis Hobj : forall ps, Forall (fun kv => P (snd kv)) ps -> P (VObject ps).

Fixpoint Value_deep_ind (v : Value) : P v :=
  match v with
  | VUndefined => Hundef
  | VNull => Hnull
  | VBool b => Hbool b
  | VNumber n => Hnum n
  | VString s => Hstr s
  | VArray l =>
      Harr ((fix go (l : list Value) : Forall P l :=
               match l with
               | [] => Forall_nil _
               | x :: r => Forall_cons x (Value_deep_ind x) (go r)
               end) l)
  | VObject ps =>
      Hobj ((fix go (ps : list (string * Value))
               : Forall (fun kv => P (snd kv)) ps :=
               match ps with
               | [] => Forall_nil _
               | kv :: r =>
                   Forall_cons kv (Value_deep_ind (snd kv)) (go r)
               end) ps)
  end.
End ValueInd.

End JS.

Import JS.

(** ** Localised messages

    [localize] belongs to [vs/nls]; a call is kept as the key, the default
    text and the arguments it was given. *)

Record Message : Type := localize {
  key : string;
  message : string;
  args : list string
}.

(** ** Abrupt completion and the state monad of the validator *)

Inductive Exception : Type := TypeError.

Inductive Completion (A : Type) : Type :=
| Normal (a : A)
| Throw (e : Exception).

Arguments Normal {A} a.
Arguments Throw {A} e.

Record IExtensionDescription : Type := {
  extensionFolderPath : string
}.

(** One entry of the batch handed to the handler: the extension, what it
    declared, and the messages its collector has received so far. *)
Record IExtensionPointUser : Type := {
  description : IExtensionDescription;
  value : Value;
  collector : list Message
}.

(** The validator receives [user] and calls [user.collector.error]; the user
    is therefore the state that is threaded through it. *)
Definition M (A : Type) : Type :=
  IExtensionPointUser -> Completion A * IExtensionPointUser.

Definition ret {A} (a : A) : M A := fun u => (Normal a, u).

Definition bind {A B} (m : M A) (f : A -> M B) : M B :=
  fun u =>
    match m u with
    | (Normal a, u') => f a u'
    | (Throw e, u') => (Throw e, u')
    end.

Definition throw {A} (e : Exception) : M A := fun u => (Throw e, u).

Notation "x <- m ;; k" := (bind m (fun x => k))
  (at level 61, m at next level, right associativity).
Notation "m ;;; k" := (bind m (fun _ => k))
  (at level 61, right associativity).

Definition report (msg : Message) (u : IExtensionPointUser)
  : IExtensionPointUser :=
  {| description := description u;
     value := value u;
     collector := collector u ++ [msg] |}.

(** [user.collector.error(msg)] *)
Definition collector_error (msg : Message) : M unit :=
  fun u => (Normal tt, report msg u).

(** [user.description.extensionFolderPath] *)
Definition folderPath : M string :=
  fun u => (Normal (extensionFolderPath (description u)), u).

(** [x.k] as an expression: a TypeError on [undefined] and [null]. *)
Definition getProp (x : Value) (k : string) : M Value :=
  match x with
  | VUndefined | VNull => throw TypeError
  | _ => ret (prop x k)
  end.

(** ** The validator (namespace [validation]) *)

Definition Locations : list string :=
  ["editor/primary"; "editor/secondary"; "explorer/context"].

Definition optwhere : Message :=
  localize "optwhere"
    "property `where` can be omitted or must be a valid enum value" [].

Definition requirefilter : Message :=
  localize "requirefilter"
    "property `when` is mandatory and must be a string or like `{language, scheme, pattern}`" [].

Definition opticon : Message :=
  localize "opticon"
    "property `icon` can be omitted or must be either a string or a literal like `{dark, light}`" [].

Definition nonempty : Message :=
  localize "nonempty" "expected non-empty value." [].

Definition requirestring (property : string) : Message :=
  localize "requirestring"
    "property `{0}` is mandatory and must be of type `string`" [property].

Definition optstring (property : string) : Message :=
  localize "optstring"
    "property `{0}` can be omitted or must be of type `string`" [property].

(** [isValidWhere]: [every] stops at the first element that fails. *)
Fixpoint isValidWhere (where_ : Value) : M bool :=
  match where_ with
  | VArray elements =>
      (fix every (l : list Value) : M bool :=
         match l with
         | [] => ret true
         | w :: rest =>
             ok <- isValidWhere w ;;
             if ok then every rest else ret false
         end) elements
  | _ =>
      if (indexOf Locations where_ <? 0)%Z then
        collector_error optwhere ;;;
        ret false
      else ret true
  end.

(** [isValidWhen]. The inner loop answers whether it left the function by
    its [return false]; a loop that runs to its end falls through to the
    report below it. *)
Fixpoint isValidWhen (when_ : Value) : M bool :=
  match when_ with
  | VArray elements =>
      returned <-
        (fix loop (l : list Value) : M bool :=
           match l with
           | [] => ret false
           | w :: rest =>
               ok <- isValidWhen w ;;
               if negb ok then ret true else loop rest
           end) elements ;;
      if returned then ret false
      else
        collector_error requirefilter ;;;
        ret false
  | _ =>
      if Type_eqb (typeof when_) TString || Type_eqb (typeof when_) TObject
      then ret true
      else
        collector_error requirefilter ;;;
        ret false
  end.

(** [a && b]: the left operand when it is falsy, the right one otherwise.
    The operands used below are total, so nothing is lost by computing the
    right one before it is needed. *)
Definition and_ (a b : Value) : Value := if truthy a then b else a.

(** [isThemableIcon] of the contribution model. It returns what its chain of
    [&&] evaluates to: a boolean, or [thing] itself when [thing] is [null].
    Its callers test that value for truthiness. *)
Definition isThemableIcon (thing : Value) : Value :=
  and_
    (and_
       (and_ (VBool (Type_eqb (typeof thing) TObject)) thing)
       (VBool (Type_eqb (typeof (prop thing "dark")) TString)))
    (VBool (Type_eqb (typeof (prop thing "light")) TString)).

(** [isValidIcon]. The third test reads [icon.dark] without a null guard. *)
Definition isValidIcon (icon : Value) : M bool :=
  if Type_eqb (typeof icon) TUndefined then ret true
  else if Type_eqb (typeof icon) TString then ret true
  else
    shaped <-
      (if Type_eqb (typeof icon) TObject then
         dark <- getProp icon "dark" ;;
         if Type_eqb (typeof dark) TString then
           light <- getProp icon "light" ;;
           ret (Type_eqb (typeof light) TString)
         else ret false
       else ret false) ;;
    if shaped then ret true
    else
      collector_error opticon ;;;
      ret false.

Section WithJoin.

(** [join] of [vs/base/common/paths], applied to two segments. *)
Variable join : string -> string -> string.

(** [isValidCommand] returns its boolean together with the candidate as the
    call leaves it, since a successful call rewrites the icon in place. The
    candidate is given apart from [user]: where it is [user.value] or an
    element of it, the caller stores it back (see [forExtension]). *)
Definition isValidCommand (candidate : Value) : M (bool * Value) :=
  if negb (truthy candidate) then
    collector_error nonempty ;;;
    ret (false, candidate)
  else if negb (Type_eqb (typeof (prop candidate "command")) TString) then
    collector_error (requirestring "command") ;;;
    ret (false, candidate)
  else if negb (Type_eqb (typeof (prop candidate "title")) TString) then
    collector_error (requirestring "title") ;;;
    ret (false, candidate)
  else if truthy (prop candidate "category")
          && negb (Type_eqb (typeof (prop candidate "category")) TString) then
    collector_error (optstring "category") ;;;
    ret (false, candidate)
  else
    valid <- isValidIcon (prop candidate "icon") ;;
    if negb valid then ret (false, candidate)
    else
      (* make icon paths absolute *)
      let icon := prop candidate "icon" in
      if Type_eqb (typeof icon) TString then
        root <- folderPath ;;
        ret (true,
             setProp candidate "icon" (VString (join root (stringOf icon))))
      else if truthy (isThemableIcon icon) then
        root <- folderPath ;;
        let icon1 :=
          setProp icon "dark"
            (VString (join root (stringOf (prop icon "dark")))) in
        root' <- folderPath ;;
        let icon2 :=
          setProp icon1 "light"
            (VString (join root' (stringOf (prop icon1 "light")))) in
        ret (true, setProp candidate "icon" icon2)
      else ret (true, candidate).

End WithJoin.

(** ** The registry [commands] and the extension point handler *)

(** The exported array together with whether [Object.freeze] was applied. *)
Record Registry : Type := {
  items : list Value;
  frozen : bool
}.

(** [export const commands: Command[] = [];] *)
Definition commands0 : Registry := {| items := []; frozen := false |}.

(** [Object.freeze(commands)] *)
Definition freeze (r : Registry) : Registry :=
  {| items := items r; frozen := true |}.

(** What a piece of code may try on the array: a call of [push] or [pop],
    or an assignment to an index or to [length], made from strict or from
    sloppy code. *)
Inductive Mutation : Type :=
| Push (x : Value)
| Pop
| SetIndex (strict : bool) (i : nat) (x : Value)
| SetLength (strict : bool) (n : nat).

(** [a.length = n] on an extensible array: cut, or pad with holes. *)
Definition resize (n : nat) (l : list Value) : list Value :=
  firstn n l ++ repeat VUndefined (n - length l).

(** [a[i] = x] on an extensible array: overwrite, or grow up to [i]. *)
Definition store (i : nat) (x : Value) (l : list Value) : list Value :=
  resize i l ++ x :: skipn (S i) l.

Definition mutate (m : Mutation) (l : list Value) : list Value :=
  match m with
  | Push x => l ++ [x]
  | Pop => removelast l
  | SetIndex _ i x => store i x l
  | SetLength _ n => resize n l
  end.

(** On a frozen array the array methods raise a TypeError, and so does an
    assignment in strict code; an assignment in sloppy code is ignored. *)
Definition refused (m : Mutation) : Completion unit :=
  match m with
  | Push _ | Pop => Throw TypeError
  | SetIndex strict _ _ | SetLength strict _ =>
      if strict then Throw TypeError else Normal tt
  end.

Definition attempt (m : Mutation) (r : Registry)
  : Completion unit * Registry :=
  if frozen r then (refused m, r)
  else (Normal tt, {| items := mutate m (items r); frozen := false |}).

(** A sequence of attempts, each one caught by whoever made it. *)
Definition attempts (ms : list Mutation) (r : Registry) : Registry :=
  fold_left (fun r m => snd (attempt m r)) ms r.

(** The extension [e] with [v] as its declared value. *)
Definition declaring (v : Value) (e : IExtensionPointUser)
  : IExtensionPointUser :=
  {| description := description e; value := v; collector := collector e |}.

Section Handler.

Variable join : string -> string -> string.

(** [handleCommand]. The object pushed is the candidate itself, as the call
    of [isValidCommand] left it. The candidate is given apart from [user]:
    here [user] changes by its collector only, and [leftByCommand] below is
    the candidate after the call, which [forExtension] stores back where
    the candidate came from. *)
Definition handleCommand (command : Value) (user : IExtensionPointUser)
    (commands : Registry)
  : Completion unit * IExtensionPointUser * Registry :=
  match isValidCommand join command user with
  | (Normal (true, command'), user') =>
      (* store command globally *)
      let (r, commands') := attempt (Push command') commands in
      (r, user', commands')
  | (Normal (false, _), user') => (Normal tt, user', commands)
  | (Throw e, user') => (Throw e, user', commands)
  end.

(** The candidate as a call [handleCommand(command, user)] leaves it: as
    [isValidCommand] left it, whatever the call returned, and untouched when
    the call threw. *)
Definition leftByCommand (command : Value) (user : IExtensionPointUser)
  : Value :=
  match isValidCommand join command user with
  | (Normal (_, command'), _) => command'
  | (Throw _, _) => command
  end.

(** [for (let command of value) handleCommand(command, extension)], as the
    collector and the registry see it; what the loop leaves in the array is
    [leftByCommands]. *)
Fixpoint forCommands (value : list Value) (extension : IExtensionPointUser)
    (commands : Registry)
  : Completion unit * IExtensionPointUser * Registry :=
  match value with
  | [] => (Normal tt, extension, commands)
  | command :: rest =>
      match handleCommand command extension commands with
      | (Normal _, extension', commands') =>
          forCommands rest extension' commands'
      | (Throw e, extension', commands') => (Throw e, extension', commands')
      end
  end.

(** The elements of the array as that loop leaves them: those it has
    handled, as the calls left them; after a throw, the others as they
    were. *)
Fixpoint leftByCommands (value : list Value) (extension : IExtensionPointUser)
    (commands : Registry) : list Value :=
  match value with
  | [] => []
  | command :: rest =>
      leftByCommand command extension
      :: match handleCommand command extension commands with
         | (Normal _, extension', commands') =>
             leftByCommands rest extension' commands'
         | (Throw _, _, _) => rest
         end
  end.

(** The body of the loop over the extensions. The candidates are
    [extension.value] or its elements, so what the calls did to them is
    what [extension.value] holds afterwards. *)
Definition forExtension (extension : IExtensionPointUser)
    (commands : Registry)
  : Completion unit * IExtensionPointUser * Registry :=
  match value extension with
  | VArray elements =>
      match forCommands elements extension commands with
      | (r, extension', commands') =>
          (r,
           declaring (VArray (leftByCommands elements extension commands))
             extension',
           commands')
      end
  | v =>
      match handleCommand v extension commands with
      | (r, extension', commands') =>
          (r, declaring (leftByCommand v extension) extension', commands')
      end
  end.

(** [for (let extension of extensions) ...] *)
Fixpoint forExtensions (extensions : list IExtensionPointUser)
    (commands : Registry)
  : Completion unit * list IExtensionPointUser * Registry :=
  match extensions with
  | [] => (Normal tt, [], commands)
  | extension :: rest =>
      match forExtension extension commands with
      | (Normal _, extension', commands') =>
          match forExtensions rest commands' with
          | (r, rest', commands'') => (r, extension' :: rest', commands'')
          end
      | (Throw e, extension', commands') =>
          (Throw e, extension' :: rest, commands')
      end
  end.

(** The handler installed on the extension point ['commands']. *)
Definition commandsHandler (extensions : list IExtensionPointUser)
    (commands : Registry)
  : Completion unit * list IExtensionPointUser * Registry :=
  match forExtensions extensions commands with
  | (Normal _, extensions', commands') =>
      (Normal tt, extensions', freeze commands')
  | (Throw e, extensions', commands') => (Throw e, extensions', commands')
  end.

End Handler.

(** ** The command action

    The two services are collaborators: what they do is a parameter.  A
    promise is represented by how it eventually settles, and the calls that
    reach the services are logged in the order in which they are made. *)

Inductive Promise (A E : Type) : Type :=
| Fulfilled (a : A)
| Rejected (reason : E)
| Pending.

Arguments Fulfilled {A E} a.
Arguments Rejected {A E} reason.
Arguments Pending {A E}.

Inductive Call : Type :=
| ActivateByEvent (activationEvent : string)
| ExecuteCommand (id : string) (args : list Value).

(** [Number.MAX_VALUE], the largest finite double. *)
Definition Number_MAX_VALUE : Z := (2 ^ 1024 - 2 ^ 971)%Z.

Record CommandAction : Type := {
  action_id : string;
  action_label : string;
  action_order : Z;
  action_command : Value;
  activationEvent : string
}.

(** The constructor, up to the callback, which is [actionCallback] below. *)
Definition newCommandAction (command : Value) : CommandAction :=
  {| action_id := stringOf (prop command "command");
     action_label := stringOf (prop command "title");
     action_order := Number_MAX_VALUE;
     action_command := command;
     activationEvent := "onCommand:" ++ stringOf (prop command "command") |}.

Section Services.

Variables World Result Error : Type.

(** [extensionService.activateByEvent] and
    [keybindingService.executeCommand]. *)
Variable activateByEvent : string -> World -> Promise unit Error * World.
Variable executeCommand :
  string -> list Value -> World -> Promise Result Error * World.

Definition Async (A : Type) : Type :=
  World * list Call -> Promise A Error * (World * list Call).

Definition callActivateByEvent (ev : string) : Async unit :=
  fun '(w, log) =>
    let (p, w') := activateByEvent ev w in
    (p, (w', log ++ [ActivateByEvent ev])).

Definition callExecuteCommand (id : string) (args : list Value)
  : Async Result :=
  fun '(w, log) =>
    let (p, w') := executeCommand id args w in
    (p, (w', log ++ [ExecuteCommand id args])).

(** [p.then(f)] with a success callback only: the callback runs once [p] is
    fulfilled and its promise becomes the result; a rejection passes
    through; nothing happens while [p] stays pending. *)
Definition then_ {A B} (p : Async A) (f : A -> Async B) : Async B :=
  fun s =>
    match p s with
    | (Fulfilled a, s') => f a s'
    | (Rejected e, s') => (Rejected e, s')
    | (Pending, s') => (Pending, s')
    end.

(** [this._actionCallback] *)
Definition actionCallback (action : CommandAction) (args : list Value)
  : Async Result :=
  then_ (callActivateByEvent (activationEvent action))
        (fun _ =>
           callExecuteCommand
             (stringOf (prop (action_command action) "command")) args).

End Services.

(** ** Vocabulary of the properties *)

(** A join used to run the definitions on concrete inputs. *)
Definition sample_join (a b : string) : string := a ++ "/" ++ b.

(** An extension installed at [folder] that declared [v], nothing reported
    yet. *)
Definition extension_at (folder : string) (v : Value) : IExtensionPointUser :=
  {| description := {| extensionFolderPath := folder |};
     value := v;
     collector := [] |}.

(** [u] after its collector received [msgs], in that order. *)
Definition reports (msgs : list Message) (u : IExtensionPointUser)
  : IExtensionPointUser :=
  {| description := description u;
     value := value u;
     collector := collector u ++ msgs |}.

(** A message cites a property when the property is one of its arguments or
    is quoted in its text. *)
Definition quoted (p : string) : string := "`" ++ p ++ "`".

Definition cites (p : string) (m : Message) : bool :=
  existsb (String.eqb p) (args m)
  || match index 0 (quoted p) (message m) with
     | Some _ => true
     | None => false
     end.

(** A computation of the validator is uniform when its result and the
    messages it reports depend on the extension's description only, and it
    touches nothing but the collector, to which it appends. *)
Definition uniform {A} (m : M A) : Prop :=
  forall d, exists r msgs,
    forall u, description u = d -> m u = (r, reports msgs u).

(** The answer of [isValidCommand] for a candidate of an extension, and the
    messages it reports, read off a run on a fresh collector. *)
Definition verdict (join : string -> string -> string)
    (cd : Value * IExtensionDescription) : Completion (bool * Value) :=
  fst (isValidCommand join (fst cd)
         {| description := snd cd; value := VUndefined; collector := [] |}).

Definition emitted (join : string -> string -> string)
    (cd : Value * IExtensionDescription) : list Message :=
  collector
    (snd (isValidCommand join (fst cd)
            {| description := snd cd; value := VUndefined; collector := [] |})).

(** The candidates an extension declared, in the order the handler visits
    them, and the candidates of a whole batch with their extension. *)
Definition candidatesOf (v : Value) : list Value :=
  match v with
  | VArray elements => elements
  | _ => [v]
  end.

Definition arrivals (extensions : list IExtensionPointUser)
  : list (Value * IExtensionDescription) :=
  flat_map
    (fun e => map (fun c => (c, description e)) (candidatesOf (value e)))
    extensions.

(** The declared value of an extension as the loop body leaves it. *)
Definition leftByExtension (join : string -> string -> string)
    (e : IExtensionPointUser) (reg : Registry) : Value :=
  match value e with
  | VArray elements => VArray (leftByCommands join elements e reg)
  | v => leftByCommand join v e
  end.

(** The candidates of a list of arrivals for which [isValidCommand] returned
    true, as that call left them. *)
Definition accepted (join : string -> string -> string)
    (l : list (Value * IExtensionDescription)) : list Value :=
  flat_map
    (fun cd =>
       match verdict join cd with
       | Normal (true, c') => [c']
       | _ => []
       end) l.

(** The checks of [isValidCommand] that come before the icon. *)
Definition passesChecks (c : Value) : Prop :=
  truthy c = true
  /\ typeof (prop c "command") = TString
  /\ typeof (prop c "title") = TString
  /\ (truthy (prop c "category") = false
      \/ typeof (prop c "category") = TString).

(** Why a candidate is refused, with the message that says so; the checks
    are listed in the order in which the code makes them, each one under the
    assumption that the earlier ones passed. *)
Inductive Refusal (c : Value) : Message -> Prop :=
| RefusedEmpty :
    truthy c = false ->
    Refusal c nonempty
| RefusedCommand :
    truthy c = true ->
    typeof (prop c "command") <> TString ->
    Refusal c (requirestring "command")
| RefusedTitle :
    truthy c = true ->
    typeof (prop c "command") = TString ->
    typeof (prop c "title") <> TString ->
    Refusal c (requirestring "title")
| RefusedCategory :
    truthy c = true ->
    typeof (prop c "command") = TString ->
    typeof (prop c "title") = TString ->
    truthy (prop c "category") = true ->
    typeof (prop c "category") <> TString ->
    Refusal c (optstring "category")
| RefusedIcon :
    passesChecks c ->
    prop c "icon" <> VUndefined ->
    prop c "icon" <> VNull ->
    typeof (prop c "icon") <> TString ->
    truthy (isThemableIcon (prop c "icon")) = false ->
    Refusal c opticon.

(** The icon of an accepted candidate after the call, for an extension
    installed at [root]. *)
Inductive Absolute (join : string -> string -> string) (root : string)
    (c : Value) : Value -> Prop :=
| AbsoluteAbsent :
    prop c "icon" = VUndefined ->
    Absolute join root c c
| AbsolutePath p :
    prop c "icon" = VString p ->
    Absolute join root c (setProp c "icon" (VString (join root p)))
| AbsoluteThemable d l :
    truthy (isThemableIcon (prop c "icon")) = true ->
    prop (prop c "icon") "dark" = VString d ->
    prop (prop c "icon") "light" = VString l ->
    Absolute join root c
      (setProp c "icon"
         (setProp (setProp (prop c "icon") "dark" (VString (join root d)))
            "light" (VString (join root l)))).

(** All the ways in which a call [isValidCommand(c, u)] can end. *)
Inductive Outcome (join : string -> string -> string) (c : Value)
    (u : IExtensionPointUser)
  : Completion (bool * Value) -> IExtensionPointUser -> Prop :=
| OutcomeRefused m :
    Refusal c m ->
    Outcome join c u (Normal (false, c)) (report m u)
| OutcomeThrown :
    passesChecks c ->
    prop c "icon" = VNull ->
    Outcome join c u (Throw TypeError) u
| OutcomeAccepted c' :
    passesChecks c ->
    Absolute join (extensionFolderPath (description u)) c c' ->
    Outcome join c u (Normal (true, c')) u.

(** What a call answered, without the candidate. *)
Definition answer (r : Completion (bool * Value)) : Completion bool :=
  match r with
  | Normal (b, _) => Normal b
  | Throw e => Throw e
  end.

(** *** The data model, as predicates on values *)

Definition isString (v : Value) : bool := Type_eqb (typeof v) TString.

(** An optional field is absent or has the shape [p]. *)
Definition optional (p : Value -> bool) (v : Value) : bool :=
  match v with
  | VUndefined => true
  | _ => p v
  end.

Definition isLocation (v : Value) : bool :=
  match v with
  | VString s => existsb (String.eqb s) Locations
  | _ => false
  end.

(** [Locations | Locations[]] *)
Definition wellTypedWhere (v : Value) : bool :=
  match v with
  | VArray elements => forallb isLocation elements
  | _ => isLocation v
  end.

(** [ResourceFilter]: an object whose [language], [scheme] and [pattern],
    when present, are strings. *)
Definition isResourceFilter (v : Value) : bool :=
  match v with
  | VObject ps =>
      optional isString (lookup "language" ps)
      && optional isString (lookup "scheme" ps)
      && optional isString (lookup "pattern" ps)
  | _ => false
  end.

Definition isCondition (v : Value) : bool :=
  isString v || isResourceFilter v.

(** A string, a filter, or a sequence of those. *)
Definition wellTypedWhen (v : Value) : bool :=
  match v with
  | VArray elements => forallb isCondition elements
  | _ => isCondition v
  end.

(** [string | ThemableIcon] *)
Definition wellTypedIcon (v : Value) : bool :=
  match v with
  | VString _ => true
  | VObject ps => isString (lookup "dark" ps) && isString (lookup "light" ps)
  | _ => false
  end.

(** A candidate of type [Command]. *)
Definition wellTyped (c : Value) : Prop :=
  typeof (prop c "command") = TString
  /\ typeof (prop c "title") = TString
  /\ optional isString (prop c "category") = true
  /\ optional wellTypedWhere (prop c "where") = true
  /\ optional wellTypedWhen (prop c "when") = true
  /\ optional wellTypedIcon (prop c "icon") = true.

(** A [where] all of whose scalars, at any depth of nesting, are
    locations. *)
Fixpoint whereOk (v : Value) : bool :=
  match v with
  | VArray elements =>
      (fix all (l : list Value) : bool :=
         match l with
         | [] => true
         | w :: rest => whereOk w && all rest
         end) elements
  | _ => isLocation v
  end.

(** A [when] that is a string, a structured value (one whose [typeof] is
    ['object']), or a sequence whose every element is such a [when]. *)
Fixpoint whenOk (v : Value) : bool :=
  match v with
  | VArray elements =>
      (fix all (l : list Value) : bool :=
         match l with
         | [] => true
         | w :: rest => whenOk w && all rest
         end) elements
  | _ => Type_eqb (typeof v) TString || Type_eqb (typeof v) TObject
  end.

(** *** Statements about the accept/reject decision at one input *)

(** The call returns false, leaves the candidate as it was, and reports the
    messages [msgs] and nothing else. *)
Definition rejectedWith (join : string -> string -> string) (c : Value)
    (u : IExtensionPointUser) (msgs : list Message) : Prop :=
  isValidCommand join c u = (Normal (false, c), reports msgs u).

(** "A candidate whose [command] is missing or not a string is rejected
    with exactly one error, which references [command]." *)
Definition commandEnforced (join : string -> string -> string) (c : Value)
    (u : IExtensionPointUser) : Prop :=
  typeof (prop c "command") <> TString ->
  exists m, rejectedWith join c u [m] /\ cites "command" m = true.

(** "A candidate whose [category] is present but not a string is rejected
    and an error citing [category] is reported." *)
Definition categoryEnforced (join : string -> string -> string) (c : Value)
    (u : IExtensionPointUser) : Prop :=
  prop c "category" <> VUndefined ->
  typeof (prop c "category") <> TString ->
  exists msgs,
    rejectedWith join c u msgs /\ existsb (cites "category") msgs = true.

(** "A candidate whose [when] is absent or is not a valid [when] is
    rejected and the mandatory-when error is reported." *)
Definition whenEnforced (join : string -> string -> string) (c : Value)
    (u : IExtensionPointUser) : Prop :=
  whenOk (prop c "when") = false ->
  exists msgs, rejectedWith join c u msgs /\ In requirefilter msgs.

(** "A candidate whose [where] holds a value outside the closed set is
    rejected and the where error is reported." *)
Definition whereEnforced (join : string -> string -> string) (c : Value)
    (u : IExtensionPointUser) : Prop :=
  prop c "where" <> VUndefined ->
  whereOk (prop c "where") = false ->
  exists msgs, rejectedWith join c u msgs /\ In optwhere msgs.

(** *** Inputs used to run the definitions *)

Definition str_field (k s : string) : string * Value := (k, VString s).

(** [{command: "ext.go", title: "Go"}] *)
Definition cmd_go : Value :=
  VObject [str_field "command" "ext.go"; str_field "title" "Go"].

(** [{command: "ext.go", title: "Go", icon: "icons/go.png"}] *)
Definition cmd_go_icon : Value :=
  VObject [str_field "command" "ext.go"; str_field "title" "Go";
           str_field "icon" "icons/go.png"].

(** The same with the icon [/ext/acme/icons/go.png]. *)
Definition cmd_go_icon_absolute : Value :=
  VObject [str_field "command" "ext.go"; str_field "title" "Go";
           str_field "icon" "/ext/acme/icons/go.png"].

(** [{command: "ext.go", title: "Go", icon: {dark: "d.svg", light: "l.svg"}}] *)
Definition cmd_go_themed : Value :=
  VObject [str_field "command" "ext.go"; str_field "title" "Go";
           ("icon", VObject [str_field "dark" "d.svg";
                             str_field "light" "l.svg"])].

(** [{command: "ext.go", title: "Go", where: "editor/tertiary"}] *)
Definition cmd_go_elsewhere : Value :=
  VObject [str_field "command" "ext.go"; str_field "title" "Go";
           str_field "where" "editor/tertiary"].

(** [{command: "ext.go", title: "Go", category: false}] *)
Definition cmd_go_category_false : Value :=
  VObject [str_field "command" "ext.go"; str_field "title" "Go";
           ("category", VBool false)].

(** [{command: "ext.go", title: "Go", category: 5}] *)
Definition cmd_go_category_5 : Value :=
  VObject [str_field "command" "ext.go"; str_field "title" "Go";
           ("category", VNumber 5)].

(** [{title: "Go", category: 5}] *)
Definition cmd_untitled_category_5 : Value :=
  VObject [str_field "title" "Go"; ("category", VNumber 5)].

(** [{command: "foo.bar", title: "Bar"}] and [{title: "missing id"}] *)
Definition cmd_foo_bar : Value :=
  VObject [str_field "command" "foo.bar"; str_field "title" "Bar"].

Definition cmd_missing_id : Value :=
  VObject [str_field "title" "missing id"].

(** [{command: "ext.go", title: "Go", icon: null}] *)
Definition cmd_go_icon_null : Value :=
  VObject [str_field "command" "ext.go"; str_field "title" "Go";
           ("icon", VNull)].

Definition acme : IExtensionPointUser := extension_at "/ext/acme" VUndefined.

(** *** The calls that reach the dispatcher *)

Definition isDispatch (c : Call) : bool :=
  match c with
  | ExecuteCommand _ _ => true
  | ActivateByEvent _ => false
  end.

Definition dispatches (log : list Call) : list Call := filter isDispatch log.

(** Collaborators used to run the action: a world that counts the calls it
    served, an activation that fails, an activation that succeeds, and a
    dispatcher that answers with the command's id. *)
Definition failing_activation (ev : string) (w : nat)
  : Promise unit string * nat :=
  (Rejected ("cannot activate " ++ ev)%string, S w).

Definition working_activation (ev : string) (w : nat)
  : Promise unit string * nat :=
  (Fulfilled tt, S w).

Definition echo_dispatcher (id : string) (args : list Value) (w : nat)
  : Promise Value string * nat :=
  (Fulfilled (VString id), S w).

(** A batch of two extensions: the first declares an array with a refused
    candidate between two accepted ones, the second a single command. *)
Definition sample_batch : list IExtensionPointUser :=
  [extension_at "/ext/acme" (VArray [cmd_go_icon; cmd_missing_id; cmd_go]);
   extension_at "/ext/foo" cmd_foo_bar].

(** The same batch once handled: the icon rewritten where the first
    candidate was declared, one message for the second. *)
Definition sample_batch_after : list IExtensionPointUser :=
  [reports [requirestring "command"]
     (extension_at "/ext/acme"
        (VArray [cmd_go_icon_absolute; cmd_missing_id; cmd_go]));
   extension_at "/ext/foo" cmd_foo_bar].

(** *** Vocabulary of the further properties *)

(** The scalars of a value: its leaves, through any nesting of arrays, from
    left to right. *)
Fixpoint scalars (v : Value) : list Value :=
  match v with
  | VArray elements =>
      (fix go (l : list Value) : list Value :=
         match l with
         | [] => []
         | w :: rest => scalars w ++ go rest
         end) elements
  | _ => [v]
  end.

(** A [when] that is not a sequence and is a string or has the [typeof]
    ['object']. *)
Definition scalarWhenOk (v : Value) : bool :=
  match v with
  | VArray _ => false
  | _ => Type_eqb (typeof v) TString || Type_eqb (typeof v) TObject
  end.

(** An icon that is absent, a string, or themable. *)
Definition iconOk (icon : Value) : bool :=
  match icon with
  | VUndefined | VString _ => true
  | _ => truthy (isThemableIcon icon)
  end.

(** What holds of a candidate once [isValidCommand] has returned true. *)
Definition acceptedShape (c : Value) : Prop :=
  typeof (prop c "command") = TString
  /\ typeof (prop c "title") = TString
  /\ (truthy (prop c "category") = false
      \/ typeof (prop c "category") = TString)
  /\ iconOk (prop c "icon") = true.

(** The messages that the candidates of an extension give rise to, in the
    order of the candidates. *)
Definition emittedBy (join : string -> string -> string)
    (e : IExtensionPointUser) : list Message :=
  flat_map (fun c => emitted join (c, description e)) (candidatesOf (value e)).

(** A candidate of an extension described by [d] as [isValidCommand] leaves
    it: with its icon rewritten when it is accepted, as it was otherwise. *)
Definition leftByVerdict (join : string -> string -> string)
    (d : IExtensionDescription) (c : Value) : Value :=
  match verdict join (c, d) with
  | Normal (_, c') => c'
  | Throw _ => c
  end.

(** The declared value of an extension with every candidate as
    [isValidCommand] leaves it. *)
Definition normalised (join : string -> string -> string)
    (e : IExtensionPointUser) : Value :=
  match value e with
  | VArray elements => VArray (map (leftByVerdict join (description e)) elements)
  | v => leftByVerdict join (description e) v
  end.

(** The number of messages held by the collectors of a batch. *)
Definition totalMessages (extensions : list IExtensionPointUser) : nat :=
  list_sum (map (fun e => length (collector e)) extensions).

(** The extension [e], had it declared its candidates as an array. *)
Definition asArray (e : IExtensionPointUser) : IExtensionPointUser :=
  declaring (VArray (candidatesOf (value e))) e.

(** [{command: "ext.go"}] and [{command: "ext.go", title: "Go", icon: 7}] *)
Definition cmd_untitled : Value :=
  VObject [str_field "command" "ext.go"].

Definition cmd_go_icon_7 : Value :=
  VObject [str_field "command" "ext.go"; str_field "title" "Go";
           ("icon", VNumber 7)].

Definition foo : IExtensionPointUser := extension_at "/ext/foo" cmd_foo_bar.

(** ** The validator only appends to the collector *)

Lemma reports_nil u : reports [] u = u.
Proof. destruct u; unfold reports; simpl. now rewrite app_nil_r. Qed.

Lemma reports_app a b u : reports b (reports a u) = reports (a ++ b) u.
Proof. unfold reports; simpl. now rewrite app_assoc. Qed.

Lemma description_reports msgs u : description (reports msgs u) = description u.
Proof. reflexivity. Qed.

Lemma uniform_ret {A} (a : A) : uniform (ret a).
Proof.
  intros d. exists (Normal a), []. intros u _.
  unfold ret. now rewrite reports_nil.
Qed.

Lemma uniform_throw {A} e : uniform (@throw A e).
Proof.
  intros d. exists (Throw e), []. intros u _.
  unfold throw. now rewrite reports_nil.
Qed.

Lemma uniform_collector_error m : uniform (collector_error m).
Proof. intros d. exists (Normal tt), [m]. reflexivity. Qed.

Lemma uniform_folderPath : uniform folderPath.
Proof.
  intros d. exists (Normal (extensionFolderPath d)), []. intros u <-.
  unfold folderPath. now rewrite reports_nil.
Qed.

Lemma uniform_bind {A B} (m : M A) (f : A -> M B) :
  uniform m -> (forall a, uniform (f a)) -> uniform (bind m f).
Proof.
  intros Hm Hf d. destruct (Hm d) as (r & msgs & Hr).
  destruct r as [a | e].
  - destruct (Hf a d) as (r' & msgs' & Hr').
    exists r', (msgs ++ msgs'). intros u Hu. unfold bind.
    rewrite (Hr u Hu), (Hr' (reports msgs u)) by (now rewrite description_reports).
    now rewrite reports_app.
  - exists (Throw e), msgs. intros u Hu. unfold bind. now rewrite (Hr u Hu).
Qed.

Lemma uniform_if {A} (b : bool) (m1 m2 : M A) :
  uniform m1 -> uniform m2 -> uniform (if b then m1 else m2).
Proof. now destruct b. Qed.

Lemma uniform_getProp x k : uniform (getProp x k).
Proof.
  destruct x; simpl; auto using uniform_throw, uniform_ret.
Qed.

Create HintDb uniform.

#[local] Hint Resolve uniform_ret uniform_throw uniform_collector_error
  uniform_folderPath uniform_getProp : uniform.

Ltac uniform_step :=
  first
    [ apply uniform_bind; [ | intro ]
    | apply uniform_if
    | solve [ auto with uniform ] ].

Lemma uniform_isValidIcon icon : uniform (isValidIcon icon).
Proof. unfold isValidIcon. repeat uniform_step. Qed.

Lemma uniform_isValidCommand join c : uniform (isValidCommand join c).
Proof.
  unfold isValidCommand.
  repeat first [ apply uniform_isValidIcon | uniform_step ].
Qed.

(** Running [isValidCommand] for an extension gives the verdict of the
    candidate and appends the emitted messages, whatever the collector
    already holds. *)
Lemma isValidCommand_run join c u :
  isValidCommand join c u
  = (verdict join (c, description u),
     reports (emitted join (c, description u)) u).
Proof.
  destruct (uniform_isValidCommand join c (description u)) as (r & msgs & H).
  unfold verdict, emitted; simpl.
  rewrite (H u eq_refl).
  rewrite (H {| description := description u; value := VUndefined;
                collector := [] |} eq_refl).
  reflexivity.
Qed.

(** ** Properties and assignment *)

Lemma lookup_assign_same k v ps : lookup k (assign k v ps) = v.
Proof.
  induction ps as [| [k' v'] ps IH]; simpl.
  - now rewrite String.eqb_refl.
  - destruct (k =? k') eqn:E; simpl.
    + now rewrite String.eqb_refl.
    + now rewrite E.
Qed.

Lemma lookup_assign_other k k' v ps :
  k' <> k -> lookup k' (assign k v ps) = lookup k' ps.
Proof.
  intros Hne. induction ps as [| [k0 v0] ps IH]; simpl.
  - apply String.eqb_neq in Hne. now rewrite Hne.
  - destruct (k =? k0) eqn:E; simpl.
    + apply String.eqb_eq in E. subst k0.
      apply String.eqb_neq in Hne. now rewrite Hne.
    + now rewrite IH.
Qed.

Lemma prop_setProp_other x k k' v :
  k' <> k -> prop (setProp x k v) k' = prop x k'.
Proof.
  intros Hne. destruct x; simpl; auto using lookup_assign_other.
Qed.

Lemma prop_defined_object x k :
  prop x k <> VUndefined -> exists ps, x = VObject ps.
Proof.
  destruct x; simpl; try congruence. intros _. now eexists.
Qed.

Lemma prop_setProp_same x k v :
  (exists k0, prop x k0 <> VUndefined) -> prop (setProp x k v) k = v.
Proof.
  intros [k0 H]. apply prop_defined_object in H as [ps ->]. simpl.
  apply lookup_assign_same.
Qed.

Lemma typeof_string_inv v : typeof v = TString -> exists s, v = VString s.
Proof. destruct v; simpl; try discriminate. intros _. now eexists. Qed.

Lemma Type_eqb_eq a b : Type_eqb a b = true <-> a = b.
Proof. destruct a, b; simpl; split; congruence. Qed.

Lemma Type_eqb_neq a b : Type_eqb a b = false <-> a <> b.
Proof. destruct a, b; simpl; split; congruence. Qed.

(** ** [isThemableIcon] as a test *)

Lemma truthy_isThemableIcon thing :
  truthy (isThemableIcon thing)
  = Type_eqb (typeof thing) TObject
    && truthy thing
    && Type_eqb (typeof (prop thing "dark")) TString
    && Type_eqb (typeof (prop thing "light")) TString.
Proof.
  unfold isThemableIcon, and_.
  destruct thing; simpl; try reflexivity.
  destruct (Type_eqb (typeof (lookup "dark" properties)) TString);
    reflexivity.
Qed.

(** ** What [isValidIcon] answers *)

(** Every answer of [isValidIcon] leaves the collector alone, except the
    answer false, which reports [opticon]; an accepted icon is absent, a
    string or themable. *)
Lemma isValidIcon_inv icon u r u' :
  isValidIcon icon u = (r, u') ->
  (r = Normal true /\ u' = u
   /\ (icon = VUndefined \/ typeof icon = TString
       \/ truthy (isThemableIcon icon) = true))
  \/ (r = Normal false /\ u' = report opticon u
      /\ icon <> VUndefined /\ icon <> VNull
      /\ typeof icon <> TString /\ truthy (isThemableIcon icon) = false)
  \/ (r = Throw TypeError /\ u' = u /\ icon = VNull).
Proof.
  unfold isValidIcon, isThemableIcon.
  destruct icon; simpl; unfold bind, ret, collector_error, throw; simpl;
    intros H;
    try (injection H as <- <-; intuition (discriminate || congruence)).
  destruct (Type_eqb (typeof (lookup "dark" properties)) TString); simpl in *.
  - destruct (Type_eqb (typeof (lookup "light" properties)) TString);
      simpl in *; injection H as <- <-;
      intuition (discriminate || congruence).
  - injection H as <- <-; intuition (discriminate || congruence).
Qed.

(** ** The outcomes of [isValidCommand] *)

Lemma isThemableIcon_fields icon :
  truthy (isThemableIcon icon) = true ->
  exists d l,
    prop icon "dark" = VString d /\ prop icon "light" = VString l.
Proof.
  rewrite truthy_isThemableIcon. intros H.
  apply andb_prop in H as [H Hl]. apply andb_prop in H as [_ Hd].
  apply Type_eqb_eq, typeof_string_inv in Hd as [d Hd].
  apply Type_eqb_eq, typeof_string_inv in Hl as [l Hl].
  now exists d, l.
Qed.

Lemma isValidCommand_outcome join c u r u' :
  isValidCommand join c u = (r, u') -> Outcome join c u r u'.
Proof.
  unfold isValidCommand.
  destruct (truthy c) eqn:Hc; simpl.
  2:{ intros H; injection H as <- <-. now apply OutcomeRefused, RefusedEmpty. }
  destruct (Type_eqb (typeof (prop c "command")) TString) eqn:Hcmd; simpl.
  2:{ intros H; injection H as <- <-.
      apply OutcomeRefused, RefusedCommand; auto. now apply Type_eqb_neq. }
  apply Type_eqb_eq in Hcmd.
  destruct (Type_eqb (typeof (prop c "title")) TString) eqn:Htitle; simpl.
  2:{ intros H; injection H as <- <-.
      apply OutcomeRefused, RefusedTitle; auto. now apply Type_eqb_neq. }
  apply Type_eqb_eq in Htitle.
  destruct (truthy (prop c "category")
            && negb (Type_eqb (typeof (prop c "category")) TString)) eqn:Hcat.
  { intros H; injection H as <- <-.
    apply andb_prop in Hcat as [Ht Hn]. apply negb_true_iff in Hn.
    apply OutcomeRefused, RefusedCategory; auto. now apply Type_eqb_neq. }
  assert (Hpass : passesChecks c).
  { repeat split; auto. apply andb_false_iff in Hcat as [Ht | Hn]; auto.
    right. apply negb_false_iff in Hn. now apply Type_eqb_eq. }
  unfold bind at 1.
  destruct (isValidIcon (prop c "icon") u) as [ri ui] eqn:Hicon.
  apply isValidIcon_inv in Hicon
    as [(-> & -> & Hshape)
       | [(-> & -> & Hu & Hn & Hs & Hth) | (-> & -> & Hnull)]]; simpl.
  - destruct (Type_eqb (typeof (prop c "icon")) TString) eqn:Hs.
    + apply Type_eqb_eq, typeof_string_inv in Hs as [p Hp].
      unfold bind, folderPath, ret. intros H; injection H as <- <-.
      apply OutcomeAccepted; auto. rewrite Hp; simpl.
      now apply AbsolutePath.
    + destruct (truthy (isThemableIcon (prop c "icon"))) eqn:Hth.
      * destruct (isThemableIcon_fields _ Hth) as (d & l & Hd & Hl).
        unfold bind, folderPath, ret. intros H; injection H as <- <-.
        apply OutcomeAccepted; auto.
        rewrite prop_setProp_other by discriminate.
        rewrite Hd, Hl; simpl. now apply AbsoluteThemable.
      * unfold ret. intros H; injection H as <- <-.
        apply OutcomeAccepted; auto. apply AbsoluteAbsent.
        destruct Hshape as [E | [E | E]]; auto.
        -- apply Type_eqb_neq in Hs. contradiction.
        -- discriminate.
  - unfold ret. intros H; injection H as <- <-.
    now apply OutcomeRefused, RefusedIcon.
  - intros H; injection H as <- <-. now apply OutcomeThrown.
Qed.

(** ** Acceptance *)

Lemma string_field_truthy c k : typeof (prop c k) = TString -> truthy c = true.
Proof. destruct c; simpl; try discriminate. reflexivity. Qed.

Lemma wellTypedIcon_shape icon :
  optional wellTypedIcon icon = true ->
  icon = VUndefined \/ typeof icon = TString
  \/ truthy (isThemableIcon icon) = true.
Proof.
  destruct icon; simpl; try discriminate; auto.
  intros H. right; right. now rewrite truthy_isThemableIcon.
Qed.

Lemma optional_string_passes v :
  optional isString v = true ->
  truthy v = false \/ typeof v = TString.
Proof. destruct v; simpl; try discriminate; auto. Qed.

(** A candidate whose command, title, category and icon have the shapes of
    the data model is accepted, and nothing is reported. *)
Lemma checked_fields_accepted join c u :
  typeof (prop c "command") = TString ->
  typeof (prop c "title") = TString ->
  optional isString (prop c "category") = true ->
  optional wellTypedIcon (prop c "icon") = true ->
  exists c', isValidCommand join c u = (Normal (true, c'), u).
Proof.
  intros Hcmd Htitle Hcat Hicon.
  destruct (isValidCommand join c u) as [r u'] eqn:E.
  apply isValidCommand_outcome in E.
  apply optional_string_passes in Hcat.
  destruct E as [m Hm | Hpass Hnull | c' Hpass Habs].
  - exfalso. destruct Hm as [Hc | Hc Hn | Hc _ Hn | Hc _ _ Ht Hn
                            | Hp Hu Hn Hs Hth].
    + rewrite (string_field_truthy _ _ Hcmd) in Hc. discriminate.
    + contradiction.
    + contradiction.
    + destruct Hcat; congruence.
    + apply wellTypedIcon_shape in Hicon as [? | [? | ?]]; congruence.
  - rewrite Hnull in Hicon. discriminate.
  - now exists c'.
Qed.

(** C7. Every candidate with a string [command], a string [title], and each
    of [category], [where], [when] and [icon] absent or typed as in the data
    model is accepted: [isValidCommand] returns true and the collector
    receives nothing. *)
Theorem well_typed_command_accepted join c u :
  wellTyped c ->
  exists c', isValidCommand join c u = (Normal (true, c'), u).
Proof.
  intros (Hcmd & Htitle & Hcat & _ & _ & Hicon).
  now apply checked_fields_accepted.
Qed.

Lemma well_typed_command_accepted_witness :
  wellTyped cmd_go_themed
  /\ exists c', isValidCommand sample_join cmd_go_themed acme
                = (Normal (true, c'), acme).
Proof.
  assert (H : wellTyped cmd_go_themed) by (repeat split).
  split; [exact H |].
  exact (well_typed_command_accepted sample_join acme H).
Defined.

(** ** Normalisation of the icon *)

Lemma has_icon_defined c v :
  prop c "icon" = v -> v <> VUndefined -> exists k, prop c k <> VUndefined.
Proof. intros <- H. now exists "icon". Qed.

(** C5. When [isValidCommand] accepts a candidate of an extension installed
    at [R]: a string icon [p] has become [join(R, p)]; the [dark] and
    [light] of a themable icon [{dark: d, light: l}] have become
    [join(R, d)] and [join(R, l)], its other properties being kept; and a
    candidate without icon is left as it was. *)
Theorem icon_made_absolute join c u c' u' :
  isValidCommand join c u = (Normal (true, c'), u') ->
  let R := extensionFolderPath (description u) in
  (forall p, prop c "icon" = VString p ->
             prop c' "icon" = VString (join R p))
  /\ (forall d l,
        prop (prop c "icon") "dark" = VString d ->
        prop (prop c "icon") "light" = VString l ->
        prop (prop c' "icon") "dark" = VString (join R d)
        /\ prop (prop c' "icon") "light" = VString (join R l)
        /\ forall k, k <> "dark" -> k <> "light" ->
                     prop (prop c' "icon") k = prop (prop c "icon") k)
  /\ (prop c "icon" = VUndefined -> c' = c).
Proof.
  intros E R. apply isValidCommand_outcome in E.
  inversion E as [ | | c0 Hpass Habs]; subst.
  destruct Habs as [Hu | p0 Hp | d0 l0 Hth Hd Hl]; fold R.
  - split; [| split].
    + intros p Hp. congruence.
    + intros d l Hd _. rewrite Hu in Hd. discriminate.
    + reflexivity.
  - assert (Hdef : exists k, prop c k <> VUndefined)
      by (apply (has_icon_defined _ Hp); discriminate).
    split; [| split].
    + intros p Hp'. rewrite prop_setProp_same by assumption. congruence.
    + intros d l Hd _. rewrite Hp in Hd. discriminate.
    + intros Hu. congruence.
  - assert (Hdef : exists k, prop c k <> VUndefined).
    { exists "icon". intros Hu. rewrite Hu in Hd. discriminate. }
    assert (Hidef : exists k, prop (prop c "icon") k <> VUndefined).
    { exists "dark". rewrite Hd. discriminate. }
    split; [| split].
    + intros p Hp. rewrite Hp in Hd. discriminate.
    + intros d l Hd' Hl'. rewrite prop_setProp_same by assumption.
      split; [| split].
      * rewrite prop_setProp_other by discriminate.
        rewrite prop_setProp_same by assumption. congruence.
      * rewrite prop_setProp_same; [congruence |].
        exists "dark". rewrite prop_setProp_same by assumption. discriminate.
      * intros k Hk1 Hk2. now rewrite !prop_setProp_other by assumption.
    + intros Hu. rewrite Hu in Hd. discriminate.
Qed.

Lemma icon_made_absolute_witness :
  prop cmd_go_icon_absolute "icon"
  = VString (sample_join "/ext/acme" "icons/go.png").
Proof.
  apply (proj1 (@icon_made_absolute sample_join cmd_go_icon acme
                  cmd_go_icon_absolute acme eq_refl)).
  reflexivity.
Defined.

(** The command [{command: "ext.go", title: "Go", icon: "icons/go.png"}]
    of the extension at [/ext/acme], through the handler: the declared value
    and the registry entry are the one object, with the icon rewritten. *)
Example registered_icon_absolute :
  commandsHandler sample_join [extension_at "/ext/acme" cmd_go_icon] commands0
  = (Normal tt, [extension_at "/ext/acme" cmd_go_icon_absolute],
     {| items := [cmd_go_icon_absolute]; frozen := true |})
  /\ prop cmd_go_icon_absolute "icon" = VString "/ext/acme/icons/go.png".
Proof. split; reflexivity. Qed.

(** ** What [isValidCommand] leaves alone *)

(** C10. A call of [isValidCommand] that returns false leaves the candidate
    exactly as it was; a call that returns true leaves every property of the
    candidate other than [icon] as it was. *)
Theorem isValidCommand_frame join c u b c' u' :
  isValidCommand join c u = (Normal (b, c'), u') ->
  (b = false -> c' = c)
  /\ (b = true -> forall k, k <> "icon" -> prop c' k = prop c k).
Proof.
  intros E. apply isValidCommand_outcome in E.
  inversion E as [m Hm | | c0 Hpass Habs]; subst.
  - split; [reflexivity | discriminate].
  - split; [discriminate |]. intros _ k Hk.
    destruct Habs; auto using prop_setProp_other.
Qed.

Lemma isValidCommand_frame_witness :
  (true = false -> cmd_go_icon_absolute = cmd_go_icon)
  /\ (true = true -> forall k, k <> "icon" ->
        prop cmd_go_icon_absolute k = prop cmd_go_icon k).
Proof.
  apply (@isValidCommand_frame sample_join cmd_go_icon acme
           true cmd_go_icon_absolute acme).
  reflexivity.
Defined.

(** ** The sub-checks [isValidWhere] and [isValidWhen] *)

Lemma indexOf_Locations v :
  (indexOf Locations v <? 0)%Z = negb (isLocation v).
Proof.
  destruct v; try reflexivity.
  unfold indexOf, isLocation, Locations.
  cbn [indexOfFrom strictEqString existsb].
  rewrite (String.eqb_sym "editor/primary" s),
    (String.eqb_sym "editor/secondary" s),
    (String.eqb_sym "explorer/context" s).
  destruct (s =? "editor/primary"); [reflexivity |].
  destruct (s =? "editor/secondary"); [reflexivity |].
  destruct (s =? "explorer/context"); reflexivity.
Qed.

(** [isValidWhere] accepts exactly the values all of whose scalars are
    locations, and reports [optwhere] once when it refuses. *)
Lemma isValidWhere_spec w u :
  isValidWhere w u
  = if whereOk w then (Normal true, u) else (Normal false, report optwhere u).
Proof.
  revert u. induction w as [ | | b | n | s | l IH | ps _] using Value_deep_ind;
    intros u;
    try (cbn [isValidWhere whereOk]; rewrite indexOf_Locations;
         destruct (isLocation _); reflexivity).
  cbn [isValidWhere whereOk].
  induction IH as [| w l Hw _ IHl]; [reflexivity |].
  unfold bind at 1. rewrite Hw.
  destruct (whereOk w); simpl; [apply IHl | reflexivity].
Qed.

(** [isValidWhen] either accepts in silence or refuses with exactly one
    [requirefilter]. *)
Lemma isValidWhen_result w u :
  isValidWhen w u = (Normal true, u)
  \/ isValidWhen w u = (Normal false, report requirefilter u).
Proof.
  revert u. induction w as [ | | b | n | s | l IH | ps _] using Value_deep_ind;
    intros u; try (cbn; auto; fail).
  right. cbn [isValidWhen]. unfold bind at 1.
  match goal with
  | |- context [match ?f l u with _ => _ end] => set (loop := f)
  end.
  assert (Hloop : loop l u = (Normal true, report requirefilter u)
                  \/ loop l u = (Normal false, u)).
  { induction IH as [| w l Hw _ IHl]; [right; reflexivity |].
    cbn. unfold bind.
    destruct (Hw u) as [-> | ->]; simpl; [apply IHl | left; reflexivity]. }
  destruct Hloop as [-> | ->]; reflexivity.
Qed.

(** A sequence never passes [isValidWhen]: a loop that finds no offending
    element runs into the final report. *)
Lemma isValidWhen_array l u :
  isValidWhen (VArray l) u = (Normal false, report requirefilter u).
Proof.
  cbn [isValidWhen]. unfold bind at 1.
  match goal with
  | |- context [match ?f l u with _ => _ end] => set (loop := f)
  end.
  assert (Hloop : loop l u = (Normal true, report requirefilter u)
                  \/ loop l u = (Normal false, u)).
  { induction l as [| w l IHl]; [right; reflexivity |].
    cbn. unfold bind.
    destruct (isValidWhen_result w u) as [-> | ->]; simpl;
      [apply IHl | left; reflexivity]. }
  destruct Hloop as [-> | ->]; reflexivity.
Qed.

Lemma isValidWhen_rejects w u :
  whenOk w = false ->
  isValidWhen w u = (Normal false, report requirefilter u).
Proof.
  destruct w; try (cbn; discriminate || reflexivity).
  intros _. apply isValidWhen_array.
Qed.

(** ** Rejections and their messages *)

Lemma rejectedWith_inv join c u msgs :
  rejectedWith join c u msgs -> exists m, Refusal c m /\ msgs = [m].
Proof.
  unfold rejectedWith. intros E. apply isValidCommand_outcome in E.
  inversion E as [m Hm Hr Hu | |]; subst.
  exists m. split; [assumption |].
  now apply app_inv_head in Hu.
Qed.

Lemma refusal_rejectedWith join c u m :
  Refusal c m -> rejectedWith join c u [m].
Proof.
  intros Hm. unfold rejectedWith.
  destruct (isValidCommand join c u) as [r u'] eqn:E.
  apply isValidCommand_outcome in E.
  assert (Hcat : forall v, truthy v = true -> typeof v <> TString ->
                           truthy v = false \/ typeof v = TString -> False)
    by (intros v ? ? [? | ?]; congruence).
  destruct E as [m' Hm' | (Ht & Hc & Hti & Hca) Hnull
                | c' (Ht & Hc & Hti & Hca) Habs].
  - enough (m' = m) by (subst; reflexivity).
    destruct Hm as [ | | | | (? & ? & ? & ?)];
      destruct Hm' as [ | | | | (? & ? & ? & ?)];
      try reflexivity; try congruence; exfalso; eauto.
  - exfalso.
    destruct Hm as [ | | | | (? & ? & ? & ?)]; try congruence; eauto.
  - exfalso.
    destruct Hm as [ | | | | (? & ? & ? & ?) Hu Hn Hs Hth];
      try congruence; eauto.
    destruct Habs as [ | p Hp | d l Hth' ]; try congruence.
    rewrite Hp in Hs. now apply Hs.
Qed.

Lemma handleCommand_rejected join c u reg msgs :
  rejectedWith join c u msgs ->
  handleCommand join c u reg = (Normal tt, reports msgs u, reg).
Proof. unfold rejectedWith, handleCommand. now intros ->. Qed.

Lemma forCommands_app join before after e reg :
  forCommands join (before ++ after) e reg
  = match forCommands join before e reg with
    | (Normal _, e', reg') => forCommands join after e' reg'
    | (Throw x, e', reg') => (Throw x, e', reg')
    end.
Proof.
  revert e reg. induction before as [| c before IH]; intros e reg; simpl.
  - reflexivity.
  - destruct (handleCommand join c e reg) as [[[[] | x] e'] reg'];
      [apply IH | reflexivity].
Qed.

(** A refused candidate costs its siblings nothing: the loop goes on with
    the candidates after it, the only trace being the message. *)
Lemma forCommands_refused join before c after e reg m :
  Refusal c m ->
  forCommands join (before ++ c :: after) e reg
  = match forCommands join before e reg with
    | (Normal _, e', reg') => forCommands join after (report m e') reg'
    | (Throw x, e', reg') => (Throw x, e', reg')
    end.
Proof.
  intros Hm. rewrite forCommands_app.
  destruct (forCommands join before e reg) as [[[[] | x] e'] reg'];
    [| reflexivity].
  simpl.
  now rewrite (handleCommand_rejected reg' (refusal_rejectedWith join e' Hm)).
Qed.

(** C8, as the code has it. A candidate whose [command] is missing or not a
    string is refused with exactly one error. For a non-empty candidate that
    error is [requirestring] for [command]; an empty candidate ([null],
    [false], [0], the empty string) is stopped by the check that comes first
    and the error is [nonempty]. In a batch the candidates before and after
    it are handled as usual. *)
Theorem missing_command_reported join c :
  typeof (prop c "command") <> TString ->
  let m := if truthy c then requirestring "command" else nonempty in
  (forall u, rejectedWith join c u [m])
  /\ (truthy c = true -> cites "command" m = true)
  /\ (forall before after e reg,
        forCommands join (before ++ c :: after) e reg
        = match forCommands join before e reg with
          | (Normal _, e', reg') => forCommands join after (report m e') reg'
          | (Throw x, e', reg') => (Throw x, e', reg')
          end).
Proof.
  intros Hcmd m.
  assert (Hm : Refusal c m).
  { unfold m. destruct (truthy c) eqn:Ht.
    - now apply RefusedCommand.
    - now apply RefusedEmpty. }
  split; [| split].
  - intros u. now apply refusal_rejectedWith.
  - unfold m. intros ->. reflexivity.
  - intros. now apply forCommands_refused.
Qed.

Lemma missing_command_reported_witness :
  typeof (prop cmd_missing_id "command") <> TString
  /\ rejectedWith sample_join cmd_missing_id acme [requirestring "command"]
  /\ forCommands sample_join ([cmd_foo_bar] ++ cmd_missing_id :: [cmd_go])
       acme commands0
     = (Normal tt, report (requirestring "command") acme,
        {| items := [cmd_foo_bar; cmd_go]; frozen := false |}).
Proof.
  assert (H : typeof (prop cmd_missing_id "command") <> TString)
    by discriminate.
  split; [exact H |].
  destruct (missing_command_reported sample_join cmd_missing_id H)
    as (Hr & _ & Hs).
  split; [exact (Hr acme) |].
  rewrite Hs. reflexivity.
Defined.

(** C8 as stated fails at the candidate [false]: it has no [command], and
    the one error it gets does not mention [command]. *)
Lemma empty_candidate_error_not_about_command :
  ~ commandEnforced sample_join (VBool false) acme.
Proof.
  intros H. destruct H as (m & Hr & Hc); [discriminate |].
  apply rejectedWith_inv in Hr as (m' & Hm' & E).
  injection E as <-.
  inversion Hm'; subst; try discriminate.
Qed.

(** The batch [[{command: "foo.bar", title: "Bar"}, {title: "missing id"}]]
    of one extension: one entry is registered, one error is collected. *)
Example batch_with_missing_id :
  commandsHandler sample_join
    [extension_at "/ext/acme" (VArray [cmd_foo_bar; cmd_missing_id])]
    commands0
  = (Normal tt,
     [reports [requirestring "command"]
        (extension_at "/ext/acme" (VArray [cmd_foo_bar; cmd_missing_id]))],
     {| items := [cmd_foo_bar]; frozen := true |}).
Proof. reflexivity. Qed.

(** C9, as the code has it. A candidate with a string [command] and a
    string [title] whose [category] is truthy and not a string is refused
    with exactly one error, [optstring] for [category]. *)
Theorem bad_category_reported join c u :
  typeof (prop c "command") = TString ->
  typeof (prop c "title") = TString ->
  truthy (prop c "category") = true ->
  typeof (prop c "category") <> TString ->
  rejectedWith join c u [optstring "category"]
  /\ cites "category" (optstring "category") = true.
Proof.
  intros Hcmd Htitle Ht Hn. split; [| reflexivity].
  apply refusal_rejectedWith, RefusedCategory; auto.
  now apply string_field_truthy with "command".
Qed.

Lemma bad_category_reported_witness :
  rejectedWith sample_join cmd_go_category_5 acme [optstring "category"]
  /\ cites "category" (optstring "category") = true.
Proof.
  apply bad_category_reported; first [reflexivity | vm_compute; discriminate].
Defined.

(** C9 as stated fails twice over: a [category] that is [false] is present
    and not a string, yet the candidate is accepted; and a candidate without
    [command] whose [category] is [5] is refused for its [command], no error
    citing [category]. *)
Lemma falsy_or_late_category_not_reported :
  ~ categoryEnforced sample_join cmd_go_category_false acme
  /\ ~ categoryEnforced sample_join cmd_untitled_category_5 acme.
Proof.
  split; intros H.
  - destruct H as (msgs & Hr & _);
      [vm_compute; discriminate | vm_compute; discriminate |].
    unfold rejectedWith in Hr. discriminate.
  - destruct H as (msgs & Hr & Hc);
      [vm_compute; discriminate | vm_compute; discriminate |].
    apply rejectedWith_inv in Hr as (m & Hm & ->).
    inversion Hm as [ | | | | (_ & Hcmd & _)]; subst; discriminate.
Qed.

(** What [isValidCommand] answers and reports is settled by whether the
    candidate is empty and by its [command], [title], [category] and
    [icon]. *)
Lemma isValidCommand_determined join c1 c2 u :
  truthy c1 = truthy c2 ->
  (forall k, In k ["command"; "title"; "category"; "icon"] ->
             prop c1 k = prop c2 k) ->
  answer (fst (isValidCommand join c1 u))
  = answer (fst (isValidCommand join c2 u))
  /\ snd (isValidCommand join c1 u) = snd (isValidCommand join c2 u).
Proof.
  intros Ht Hk. unfold isValidCommand.
  rewrite Ht, (Hk "command"), (Hk "title"), (Hk "category"), (Hk "icon")
    by (simpl; tauto).
  destruct (truthy c2); simpl; [| split; reflexivity].
  destruct (Type_eqb (typeof (prop c2 "command")) TString); simpl;
    [| split; reflexivity].
  destruct (Type_eqb (typeof (prop c2 "title")) TString); simpl;
    [| split; reflexivity].
  destruct (truthy (prop c2 "category")
            && negb (Type_eqb (typeof (prop c2 "category")) TString)); simpl;
    [split; reflexivity |].
  unfold bind, folderPath, ret.
  destruct (isValidIcon (prop c2 "icon") u) as [[[] | x] u']; simpl;
    try (split; reflexivity).
  destruct (Type_eqb (typeof (prop c2 "icon")) TString);
    [split; reflexivity |].
  destruct (truthy (isThemableIcon (prop c2 "icon"))); split; reflexivity.
Qed.

(** In particular neither [where] nor [when] is consulted: whatever is
    stored there, the answer and the messages are the same. *)
Lemma where_and_when_not_consulted join c k w u :
  k = "where" \/ k = "when" ->
  answer (fst (isValidCommand join (setProp c k w) u))
  = answer (fst (isValidCommand join c u))
  /\ snd (isValidCommand join (setProp c k w) u)
     = snd (isValidCommand join c u).
Proof.
  intros Hk. apply isValidCommand_determined.
  - now destruct c.
  - intros k' Hk'. apply prop_setProp_other.
    simpl in Hk'. destruct Hk as [-> | ->];
      intuition (subst; discriminate).
Qed.

(** C1 at [{command: "ext.go", title: "Go", where: "editor/tertiary"}]: the
    [where] is outside the closed set and [isValidWhere] refuses it with
    [optwhere], but [isValidCommand] does not ask [isValidWhere]: it returns
    true and reports nothing. *)
Theorem where_not_enforced :
  whereOk (prop cmd_go_elsewhere "where") = false
  /\ isValidWhere (prop cmd_go_elsewhere "where") acme
     = (Normal false, report optwhere acme)
  /\ isValidCommand sample_join cmd_go_elsewhere acme
     = (Normal (true, cmd_go_elsewhere), acme)
  /\ ~ whereEnforced sample_join cmd_go_elsewhere acme.
Proof.
  split; [reflexivity | split; [reflexivity | split; [reflexivity |]]].
  intros H. destruct H as (msgs & Hr & _);
    [vm_compute; discriminate | reflexivity |].
  discriminate.
Qed.

(** C2 as stated fails at [{command: "ext.go", title: "Go"}]: there is no
    [when], and the candidate is accepted without any error. *)
Lemma absent_when_accepted :
  isValidCommand sample_join cmd_go acme = (Normal (true, cmd_go), acme)
  /\ ~ whenEnforced sample_join cmd_go acme.
Proof.
  split; [reflexivity |].
  intros H. destruct H as (msgs & Hr & _); [reflexivity |].
  discriminate.
Qed.

(** C2, as the code has it. [when] is optional for [isValidCommand]: a
    candidate typed as in the data model and without [when] is accepted and
    nothing is reported. The sub-check [isValidWhen] returns false and
    reports exactly the mandatory-when error for every value that is absent
    or is neither a string, nor structured, nor a sequence whose every
    element is a valid [when]. *)
Theorem when_optional_checked_by_isValidWhen join c u :
  prop c "when" = VUndefined ->
  wellTyped c ->
  (exists c', isValidCommand join c u = (Normal (true, c'), u))
  /\ isValidWhen (prop c "when") u = (Normal false, report requirefilter u)
  /\ (forall w, whenOk w = false ->
        isValidWhen w u = (Normal false, report requirefilter u)).
Proof.
  intros Hw (Hcmd & Htitle & Hcat & _ & _ & Hicon). split; [| split].
  - now apply checked_fields_accepted.
  - now rewrite Hw.
  - intros w. apply isValidWhen_rejects.
Qed.

Lemma when_optional_checked_by_isValidWhen_witness :
  (exists c', isValidCommand sample_join cmd_go acme = (Normal (true, c'), acme))
  /\ isValidWhen (prop cmd_go "when") acme
     = (Normal false, report requirefilter acme)
  /\ (forall w, whenOk w = false ->
        isValidWhen w acme = (Normal false, report requirefilter acme)).
Proof.
  apply when_optional_checked_by_isValidWhen; [reflexivity | repeat split].
Defined.

(** ** The registry after a batch *)

Lemma accepted_app join a b :
  accepted join (a ++ b) = accepted join a ++ accepted join b.
Proof. unfold accepted. apply flat_map_app. Qed.

Lemma accepted_sound join l :
  Forall (fun x => exists cd, In cd l /\ verdict join cd = Normal (true, x))
    (accepted join l).
Proof.
  apply Forall_forall. intros x Hx. unfold accepted in Hx.
  apply in_flat_map in Hx as (cd & Hin & Hx). exists cd. split; [assumption |].
  destruct (verdict join cd) as [[[] c'] | e]; simpl in Hx; try contradiction.
  destruct Hx as [-> | []]. reflexivity.
Qed.

(** [handleCommand] on an open registry, by the verdict of the candidate. *)
Lemma handleCommand_verdict join c u reg :
  frozen reg = false ->
  handleCommand join c u reg
  = match verdict join (c, description u) with
    | Normal (true, c') =>
        (Normal tt, reports (emitted join (c, description u)) u,
         {| items := items reg ++ [c']; frozen := false |})
    | Normal (false, _) =>
        (Normal tt, reports (emitted join (c, description u)) u, reg)
    | Throw e =>
        (Throw e, reports (emitted join (c, description u)) u, reg)
    end.
Proof.
  intros Hopen. unfold handleCommand, attempt.
  rewrite isValidCommand_run, Hopen.
  destruct (verdict join (c, description u)) as [[[] c'] | e]; reflexivity.
Qed.

(** The loop over the candidates of one extension, on an open registry: the
    candidates before the first one that throws have been handled, and the
    accepted ones among them appended. *)
Lemma forCommands_open join l u reg r u' reg' :
  frozen reg = false ->
  forCommands join l u reg = (r, u', reg') ->
  description u' = description u /\ value u' = value u
  /\ frozen reg' = false
  /\ exists processed pending,
       l = processed ++ pending
       /\ items reg'
          = items reg
            ++ accepted join (map (fun c => (c, description u)) processed)
       /\ (r = Normal tt -> pending = [])
       /\ (forall e, r = Throw e ->
             exists c rest, pending = c :: rest
                            /\ verdict join (c, description u) = Throw e).
Proof.
  revert u reg. induction l as [| c l IH]; intros u reg Hopen E; simpl in E.
  - injection E as <- <- <-. repeat split; auto.
    exists [], []. simpl. rewrite app_nil_r. repeat split; auto.
    intros e He. discriminate.
  - rewrite handleCommand_verdict in E by assumption.
    destruct (verdict join (c, description u)) as [[[] c'] | e] eqn:Hv.
    + apply IH in E as (Hd & Hval & Hf & done & rest & -> & Hi & Hn & Ht);
        [| reflexivity].
      simpl in Hd, Hval, Hi. repeat split; auto.
      exists (c :: done), rest. repeat split; auto.
      rewrite Hi. simpl. unfold accepted at 2. simpl. rewrite Hv.
      simpl. now rewrite <- app_assoc.
    + apply IH in E as (Hd & Hval & Hf & done & rest & -> & Hi & Hn & Ht);
        [| assumption].
      simpl in Hd, Hval, Hi. repeat split; auto.
      exists (c :: done), rest. repeat split; auto.
      rewrite Hi. simpl. unfold accepted at 2. simpl. now rewrite Hv.
    + injection E as <- <- <-. repeat split; auto.
      exists [], (c :: l). simpl. rewrite app_nil_r. repeat split; auto.
      * discriminate.
      * intros e0 He0. injection He0 as <-. now exists c, l.
Qed.

Lemma forExtension_as_loop join e reg :
  forExtension join e reg
  = match forCommands join (candidatesOf (value e)) e reg with
    | (r, e', reg') => (r, declaring (leftByExtension join e reg) e', reg')
    end.
Proof.
  unfold forExtension, candidatesOf, leftByExtension.
  destruct (value e); try reflexivity; simpl;
    destruct (handleCommand join _ e reg) as [[[[] | x] e'] reg'];
    reflexivity.
Qed.

(** The loop over the extensions, on an open registry. *)
Lemma forExtensions_open join exts reg r exts' reg' :
  frozen reg = false ->
  forExtensions join exts reg = (r, exts', reg') ->
  frozen reg' = false
  /\ exists processed pending,
       arrivals exts = processed ++ pending
       /\ items reg' = items reg ++ accepted join processed
       /\ (r = Normal tt -> pending = [])
       /\ (forall x, r = Throw x ->
             exists cd rest, pending = cd :: rest
                             /\ verdict join cd = Throw x).
Proof.
  revert reg r exts' reg'.
  induction exts as [| e exts IH]; intros reg r exts' reg' Hopen E;
    simpl in E.
  - injection E as <- <- <-. split; [assumption |].
    exists [], []. simpl. rewrite app_nil_r. repeat split; auto.
    intros x Hx. discriminate.
  - rewrite forExtension_as_loop in E.
    destruct (forCommands join (candidatesOf (value e)) e reg)
      as [[r1 e1] reg1] eqn:E1.
    apply forCommands_open in E1
      as (_ & _ & Hopen1 & done & rest & Hsplit & Hi1 & Hn1 & Ht1);
      [| assumption].
    destruct r1 as [[] | x1].
    + destruct (forExtensions join exts reg1) as [[r2 exts2] reg2] eqn:E2.
      injection E as <- <- <-.
      apply IH in E2 as (Hopen2 & done2 & rest2 & Hsplit2 & Hi2 & Hn2 & Ht2);
        [| assumption].
      split; [assumption |].
      rewrite (Hn1 eq_refl), app_nil_r in Hsplit.
      exists (map (fun c => (c, description e)) done ++ done2), rest2.
      simpl. rewrite Hsplit, Hsplit2, Hi2, Hi1, accepted_app.
      rewrite <- !app_assoc. repeat split; auto.
    + injection E as <- <- <-. split; [assumption |].
      destruct (Ht1 x1 eq_refl) as (c & rest' & -> & Hc).
      exists (map (fun c => (c, description e)) done),
        ((c, description e) :: map (fun c => (c, description e)) rest'
           ++ arrivals exts).
      simpl. rewrite Hsplit, map_app. simpl. rewrite <- app_assoc. simpl.
      repeat split; auto.
      * discriminate.
      * intros x Hx. injection Hx as <-. eauto.
Qed.

(** C3. Whatever the batch, and whether the handler completes or is cut
    short by an exception, the registry it leaves behind is the registry it
    found followed by the candidates for which [isValidCommand] returned
    true, as those calls left them, in the order of their arrival within and
    across extensions; every entry added is the result of a call that
    returned true. All the candidates of the batch have been handled and the
    registry is frozen when the handler completes; when it throws, the
    candidates handled are those that arrived before the one that threw. *)
Theorem registry_holds_accepted_in_arrival_order join exts reg r exts' reg' :
  frozen reg = false ->
  commandsHandler join exts reg = (r, exts', reg') ->
  exists processed pending,
    arrivals exts = processed ++ pending
    /\ items reg' = items reg ++ accepted join processed
    /\ Forall
         (fun x => exists cd,
                     In cd processed /\ verdict join cd = Normal (true, x))
         (accepted join processed)
    /\ (r = Normal tt -> pending = [] /\ frozen reg' = true)
    /\ (forall x, r = Throw x ->
          exists cd rest, pending = cd :: rest /\ verdict join cd = Throw x).
Proof.
  intros Hopen E. unfold commandsHandler in E.
  destruct (forExtensions join exts reg) as [[r0 exts0] reg0] eqn:E0.
  apply forExtensions_open in E0
    as (Hopen0 & processed & pending & Hsplit & Hi & Hn & Ht);
    [| assumption].
  exists processed, pending.
  destruct r0 as [[] | x0]; injection E as <- <- <-; simpl.
  - repeat split; auto using accepted_sound.
  - repeat split; auto using accepted_sound; discriminate.
Qed.

Lemma registry_holds_accepted_in_arrival_order_witness :
  exists processed pending,
    arrivals sample_batch = processed ++ pending
    /\ [cmd_go_icon_absolute; cmd_go; cmd_foo_bar]
       = items commands0 ++ accepted sample_join processed
    /\ Forall
         (fun x => exists cd,
                     In cd processed
                     /\ verdict sample_join cd = Normal (true, x))
         (accepted sample_join processed)
    /\ (Normal tt = Normal tt -> pending = [] /\ true = true)
    /\ (forall x, Normal tt = Throw x ->
          exists cd rest,
            pending = cd :: rest /\ verdict sample_join cd = Throw x).
Proof.
  apply (@registry_holds_accepted_in_arrival_order sample_join sample_batch
           commands0 (Normal tt)
           sample_batch_after
           {| items := [cmd_go_icon_absolute; cmd_go; cmd_foo_bar];
              frozen := true |});
    reflexivity.
Defined.

(** A batch in which a candidate has the icon [null]: the handler throws at
    that candidate; the candidate accepted before it is in the registry, the
    one after it has not been looked at, and the registry stays open. *)
Example batch_cut_short :
  commandsHandler sample_join
    [extension_at "/ext/acme" (VArray [cmd_go; cmd_go_icon_null; cmd_foo_bar])]
    commands0
  = (Throw TypeError,
     [extension_at "/ext/acme" (VArray [cmd_go; cmd_go_icon_null; cmd_foo_bar])],
     {| items := [cmd_go]; frozen := false |}).
Proof. reflexivity. Qed.

(** ** The registry after the freeze *)

Lemma attempt_frozen m r :
  frozen r = true -> attempt m r = (refused m, r).
Proof. unfold attempt. now intros ->. Qed.

Lemma attempts_frozen ms r : frozen r = true -> attempts ms r = r.
Proof.
  intros Hf. unfold attempts. induction ms as [| m ms IH]; simpl.
  - reflexivity.
  - now rewrite attempt_frozen.
Qed.

Lemma commandsHandler_freezes join exts reg exts' reg' :
  commandsHandler join exts reg = (Normal tt, exts', reg') ->
  frozen reg' = true.
Proof.
  unfold commandsHandler.
  destruct (forExtensions join exts reg) as [[[[] | x] exts0] reg0];
    intros E; [| discriminate].
  now injection E as <- <-.
Qed.

(** C4. Once the handler has drained a batch and frozen the registry, no
    sequence of attempted mutations, in particular no number of attempted
    pushes, changes the registry: its content stays what it was when the
    registry was frozen, it stays frozen, and every attempted push raises a
    TypeError. *)
Theorem frozen_registry_ignores_mutation join exts reg exts' reg' :
  commandsHandler join exts reg = (Normal tt, exts', reg') ->
  forall ms,
    items (attempts ms reg') = items reg'
    /\ frozen (attempts ms reg') = true
    /\ (forall xs, items (attempts (map Push xs) reg') = items reg')
    /\ (forall x, attempt (Push x) reg' = (Throw TypeError, reg')).
Proof.
  intros E ms. apply commandsHandler_freezes in E.
  rewrite attempts_frozen by assumption.
  split; [reflexivity | split; [assumption | split]].
  - intros xs. now rewrite attempts_frozen.
  - intros x. now rewrite attempt_frozen.
Qed.

Lemma frozen_registry_ignores_mutation_witness :
  items (attempts [Push cmd_go; Pop; SetIndex true 0 VNull; SetLength false 0]
           {| items := [cmd_foo_bar]; frozen := true |})
  = [cmd_foo_bar].
Proof.
  apply (@frozen_registry_ignores_mutation sample_join
           [extension_at "/ext/acme" (VArray [cmd_foo_bar; cmd_missing_id])]
           commands0
           [reports [requirestring "command"]
              (extension_at "/ext/acme"
                 (VArray [cmd_foo_bar; cmd_missing_id]))]
           {| items := [cmd_foo_bar]; frozen := true |}
           eq_refl
           [Push cmd_go; Pop; SetIndex true 0 VNull; SetLength false 0]).
Defined.

(** Before the freeze the same attempts do change the registry. *)
Example open_registry_mutates :
  items (attempts [Push cmd_go; Pop; SetIndex true 2 VNull; SetLength false 2]
           {| items := [cmd_foo_bar]; frozen := false |})
  = [cmd_foo_bar; VUndefined].
Proof. reflexivity. Qed.

(** ** Invoking a command action *)

Lemma dispatches_app a b : dispatches (a ++ b) = dispatches a ++ dispatches b.
Proof. unfold dispatches. apply filter_app. Qed.

(** The action of a command activates on the event named after the id of
    the command. *)
Lemma activationEvent_newCommandAction command :
  activationEvent (newCommandAction command)
  = ("onCommand:" ++ stringOf (prop command "command"))%string.
Proof. reflexivity. Qed.

(** C6. An invocation of the action of a command first calls the activation
    trigger, for the event [onCommand:<id>]. If that promise is rejected,
    the promise of the invocation is rejected for the same reason and the
    dispatcher is not called; nor is it called while the activation is
    pending. If the activation is fulfilled, the dispatcher is called next,
    once, with the id and the arguments of the invocation, and what its
    promise settles to, result or failure, is what the invocation settles
    to. *)
Theorem action_activates_then_dispatches (World Result Error : Type)
    (activateByEvent : string -> World -> Promise unit Error * World)
    (executeCommand :
       string -> list Value -> World -> Promise Result Error * World)
    command args w log p w' :
  let id := stringOf (prop command "command") in
  let ev := ("onCommand:" ++ id)%string in
  activateByEvent ev w = (p, w') ->
  match p with
  | Rejected reason =>
      actionCallback activateByEvent executeCommand
        (newCommandAction command) args (w, log)
      = (Rejected reason, (w', log ++ [ActivateByEvent ev]))
      /\ dispatches (log ++ [ActivateByEvent ev]) = dispatches log
  | Pending =>
      actionCallback activateByEvent executeCommand
        (newCommandAction command) args (w, log)
      = (Pending, (w', log ++ [ActivateByEvent ev]))
      /\ dispatches (log ++ [ActivateByEvent ev]) = dispatches log
  | Fulfilled _ =>
      actionCallback activateByEvent executeCommand
        (newCommandAction command) args (w, log)
      = (fst (executeCommand id args w'),
         (snd (executeCommand id args w'),
          log ++ [ActivateByEvent ev; ExecuteCommand id args]))
  end.
Proof.
  intros id ev Hact.
  unfold actionCallback, then_, callActivateByEvent, callExecuteCommand.
  rewrite activationEvent_newCommandAction. fold id. fold ev.
  rewrite Hact.
  destruct p as [[] | reason |].
  - simpl. fold id. destruct (executeCommand id args w') as [q w''].
    simpl. now rewrite <- app_assoc.
  - split; [reflexivity |].
    rewrite dispatches_app. simpl. apply app_nil_r.
  - split; [reflexivity |].
    rewrite dispatches_app. simpl. apply app_nil_r.
Qed.

Lemma action_activates_then_dispatches_witness :
  actionCallback failing_activation echo_dispatcher
    (newCommandAction cmd_go) [VNumber 1] (0, [])
  = (Rejected "cannot activate onCommand:ext.go",
     (1, [ActivateByEvent "onCommand:ext.go"]))
  /\ dispatches ([] ++ [ActivateByEvent "onCommand:ext.go"]) = dispatches [].
Proof.
  exact (@action_activates_then_dispatches nat Value string
           failing_activation echo_dispatcher cmd_go [VNumber 1] 0 []
           (Rejected "cannot activate onCommand:ext.go") 1 eq_refl).
Defined.

(** An invocation whose activation succeeds: the dispatcher is called after
    the activation and its result is the result of the invocation. *)
Example action_dispatches_after_activation :
  actionCallback working_activation echo_dispatcher
    (newCommandAction cmd_go) [VNumber 1] (0, [])
  = (Fulfilled (VString "ext.go"),
     (2, [ActivateByEvent "onCommand:ext.go";
          ExecuteCommand "ext.go" [VNumber 1]])).
Proof. reflexivity. Qed.

(** * Further properties of the code *)

(** ** [isThemableIcon] *)

Lemma truthy_setProp x k v : truthy (setProp x k v) = truthy x.
Proof. now destruct x. Qed.

Lemma isThemableIcon_object thing :
  truthy (isThemableIcon thing) = true
  <-> exists ps d l,
        thing = VObject ps
        /\ lookup "dark" ps = VString d /\ lookup "light" ps = VString l.
Proof.
  split.
  - intros H. destruct (isThemableIcon_fields _ H) as (d & l & Hd & Hl).
    destruct thing; simpl in Hd; try discriminate.
    now exists properties, d, l.
  - intros (ps & d & l & -> & Hd & Hl).
    rewrite truthy_isThemableIcon; simpl. now rewrite Hd, Hl.
Qed.

(** [isThemableIcon] returns [true] exactly for the objects whose [dark] and
    [light] are both strings; for [null] it returns [null], the falsy
    operand at which its chain of [&&] stops; for every other value it
    returns [false]. Properties other than [dark] and [light] have no part
    in the answer. *)
Theorem isThemableIcon_iff thing :
  (isThemableIcon thing = VBool true
   <-> exists ps d l,
         thing = VObject ps
         /\ lookup "dark" ps = VString d /\ lookup "light" ps = VString l)
  /\ isThemableIcon VNull = VNull
  /\ (thing <> VNull ->
      isThemableIcon thing = VBool true \/ isThemableIcon thing = VBool false)
  /\ (forall k v,
        k <> "dark" -> k <> "light" ->
        isThemableIcon (setProp thing k v) = isThemableIcon thing).
Proof.
  split; [| split; [reflexivity | split]].
  - rewrite <- isThemableIcon_object. unfold isThemableIcon, and_.
    destruct thing; simpl; try (split; discriminate).
    destruct (Type_eqb (typeof (lookup "dark" properties)) TString); simpl;
      [| split; discriminate].
    destruct (Type_eqb (typeof (lookup "light" properties)) TString);
      split; congruence.
  - intros Hn. unfold isThemableIcon, and_.
    destruct thing; simpl; auto; try contradiction.
    destruct (Type_eqb (typeof (lookup "dark" properties)) TString); simpl;
      auto.
    destruct (Type_eqb (typeof (lookup "light" properties)) TString); auto.
  - intros k v Hd Hl. unfold isThemableIcon.
    rewrite !prop_setProp_other by congruence.
    now destruct thing.
Qed.

(** ** [isValidWhere] *)

Lemma whereOk_scalars w : whereOk w = forallb isLocation (scalars w).
Proof.
  induction w as [ | | b | n | s | l IH | ps _] using Value_deep_ind;
    try (simpl; rewrite ?andb_true_r; reflexivity).
  cbn [whereOk scalars].
  induction IH as [| w l Hw _ IHl]; [reflexivity |].
  now rewrite forallb_app, Hw, IHl.
Qed.

(** [isValidWhere] never throws. It returns true, reporting nothing, exactly
    when every scalar found in its argument, at any depth of nesting, is one
    of the three locations; otherwise it returns false and reports
    [optwhere] once, however many offending scalars there are. *)
Theorem isValidWhere_decides w u :
  isValidWhere w u
  = if forallb isLocation (scalars w)
    then (Normal true, u)
    else (Normal false, report optwhere u).
Proof. rewrite <- whereOk_scalars. apply isValidWhere_spec. Qed.

(** ** [isValidWhen] *)

(** [isValidWhen] refuses every sequence, the empty one and those whose
    elements are all valid included, with exactly one [requirefilter]. *)
Theorem isValidWhen_refuses_sequences l u :
  isValidWhen (VArray l) u = (Normal false, report requirefilter u).
Proof. apply isValidWhen_array. Qed.

(** On anything else [isValidWhen] returns true, reporting nothing, exactly
    for the strings and the values whose [typeof] is ['object'], [null]
    among them; the others, [undefined] among them, get false and one
    [requirefilter]. It never throws. *)
Theorem isValidWhen_decides w u :
  isValidWhen w u
  = if scalarWhenOk w
    then (Normal true, u)
    else (Normal false, report requirefilter u).
Proof.
  destruct w; try reflexivity.
  apply isValidWhen_array.
Qed.

(** ** [isValidIcon] *)

(** [isValidIcon] throws exactly on [null], and then it has reported
    nothing. *)
Theorem isValidIcon_throws_iff_null icon u :
  (exists x u', isValidIcon icon u = (Throw x, u'))
  <-> icon = VNull.
Proof.
  split.
  - intros (x & u' & E).
    apply isValidIcon_inv in E
      as [(E & _) | [(E & _) | (_ & _ & Hnull)]];
      [discriminate | discriminate | assumption].
  - intros ->. now exists TypeError, u.
Qed.

(** On every icon but [null], [isValidIcon] returns true, reporting nothing,
    exactly when the icon is absent, a string, or what [isThemableIcon]
    recognises; otherwise it returns false and reports [opticon] once. So
    after a true answer the icon is absent, a string, or themable. *)
Theorem isValidIcon_decides icon u :
  icon <> VNull ->
  isValidIcon icon u
  = if iconOk icon
    then (Normal true, u)
    else (Normal false, report opticon u).
Proof.
  intros Hnull.
  destruct (isValidIcon icon u) as [r u'] eqn:E.
  apply isValidIcon_inv in E
    as [(-> & -> & Hshape)
       | [(-> & -> & Hu & Hn & Hs & Hth) | (_ & _ & Hn)]].
  - assert (H : iconOk icon = true).
    { destruct Hshape as [-> | [Hs | Hth]]; [reflexivity | |].
      - apply typeof_string_inv in Hs as [s ->]. reflexivity.
      - destruct icon; try reflexivity; assumption. }
    now rewrite H.
  - assert (H : iconOk icon = false).
    { destruct icon; simpl in *; try reflexivity; congruence. }
    now rewrite H.
  - contradiction.
Qed.

Lemma isValidIcon_decides_witness :
  isValidIcon (VNumber 7) acme = (Normal false, report opticon acme).
Proof.
  apply (@isValidIcon_decides (VNumber 7) acme). discriminate.
Defined.

(** ** [isValidCommand]: one outcome, and which *)

Lemma Refusal_functional c m1 m2 : Refusal c m1 -> Refusal c m2 -> m1 = m2.
Proof.
  assert (Hcat : forall v, truthy v = true -> typeof v <> TString ->
                           truthy v = false \/ typeof v = TString -> False)
    by (intros v ? ? [? | ?]; congruence).
  intros H1 H2.
  destruct H1 as [ | | | | (? & ? & ? & ?)];
    destruct H2 as [ | | | | (? & ? & ? & ?)];
    try reflexivity; try congruence; exfalso; eauto.
Qed.

Lemma Refusal_passes_inv c m :
  Refusal c m -> passesChecks c ->
  m = opticon
  /\ prop c "icon" <> VUndefined /\ prop c "icon" <> VNull
  /\ typeof (prop c "icon") <> TString
  /\ truthy (isThemableIcon (prop c "icon")) = false.
Proof.
  intros Hm (Ht & Hc & Hti & Hca).
  destruct Hm as [ | | | | _ Hu Hn Hs Hth]; try congruence.
  - exfalso. destruct Hca; congruence.
  - auto.
Qed.

Lemma Absolute_functional join root c c1 c2 :
  Absolute join root c c1 -> Absolute join root c c2 -> c1 = c2.
Proof.
  intros H1 H2.
  destruct H1 as [Hu | p Hp | d l Hth Hd Hl];
    destruct H2 as [Hu' | p' Hp' | d' l' Hth' Hd' Hl'];
    try reflexivity; try congruence.
  - rewrite Hu in Hth'. discriminate.
  - rewrite Hp in Hth'. discriminate.
  - rewrite Hu' in Hth. discriminate.
  - rewrite Hp' in Hth. discriminate.
Qed.

Lemma Absolute_icon_shape join root c c' :
  Absolute join root c c' ->
  prop c "icon" <> VNull /\ iconOk (prop c "icon") = true.
Proof.
  intros [Hu | p Hp | d l Hth Hd Hl].
  - rewrite Hu. split; [discriminate | reflexivity].
  - rewrite Hp. split; [discriminate | reflexivity].
  - split.
    + intros E. rewrite E in Hth. discriminate.
    + destruct (prop c "icon"); try reflexivity; assumption.
Qed.

Lemma iconOk_not_refused icon :
  iconOk icon = true ->
  icon = VUndefined \/ typeof icon = TString \/ truthy (isThemableIcon icon) = true.
Proof. destruct icon; simpl; auto. Qed.

(** The outcomes exclude one another. *)
Lemma Outcome_functional join c u r1 u1 r2 u2 :
  Outcome join c u r1 u1 -> Outcome join c u r2 u2 -> r1 = r2 /\ u1 = u2.
Proof.
  intros H1 H2.
  destruct H1 as [m1 Hm1 | Hp1 Hn1 | c1 Hp1 Ha1];
    destruct H2 as [m2 Hm2 | Hp2 Hn2 | c2 Hp2 Ha2].
  - now rewrite (Refusal_functional Hm1 Hm2).
  - exfalso. destruct (Refusal_passes_inv Hm1 Hp2) as (_ & _ & H & _).
    contradiction.
  - exfalso. destruct (Refusal_passes_inv Hm1 Hp2) as (_ & Hu & _ & Hs & Hth).
    destruct (Absolute_icon_shape Ha2) as [_ Hok].
    apply iconOk_not_refused in Hok as [? | [? | ?]]; congruence.
  - exfalso. destruct (Refusal_passes_inv Hm2 Hp1) as (_ & _ & H & _).
    contradiction.
  - auto.
  - exfalso. destruct (Absolute_icon_shape Ha2) as [H _]. contradiction.
  - exfalso. destruct (Refusal_passes_inv Hm2 Hp1) as (_ & Hu & _ & Hs & Hth).
    destruct (Absolute_icon_shape Ha1) as [_ Hok].
    apply iconOk_not_refused in Hok as [? | [? | ?]]; congruence.
  - exfalso. destruct (Absolute_icon_shape Ha1) as [H _]. contradiction.
  - now rewrite (Absolute_functional Ha1 Ha2).
Qed.

(** An outcome that the relation allows is the one the code produces. *)
Lemma Outcome_complete join c u r u' :
  Outcome join c u r u' -> isValidCommand join c u = (r, u').
Proof.
  intros H. destruct (isValidCommand join c u) as [r0 u0] eqn:E.
  apply isValidCommand_outcome in E.
  now destruct (Outcome_functional E H) as [-> ->].
Qed.

(** A call of [isValidCommand] leaves the description of the extension
    alone and keeps what the collector held; it adds exactly one message
    when it returns false and none when it returns true or throws. *)
Theorem isValidCommand_reports_once_iff_false join c u r u' :
  isValidCommand join c u = (r, u') ->
  description u' = description u
  /\ exists msgs,
       collector u' = collector u ++ msgs
       /\ match r with
          | Normal (false, _) => length msgs = 1
          | _ => msgs = []
          end.
Proof.
  intros E. apply isValidCommand_outcome in E.
  destruct E as [m Hm | Hp Hn | c' Hp Ha]; simpl.
  - split; [reflexivity |]. now exists [m].
  - split; [reflexivity |]. exists []. now rewrite app_nil_r.
  - split; [reflexivity |]. exists []. now rewrite app_nil_r.
Qed.

Lemma isValidCommand_reports_once_iff_false_witness :
  description (report (requirestring "command") acme) = description acme
  /\ exists msgs,
       collector (report (requirestring "command") acme)
       = collector acme ++ msgs
       /\ length msgs = 1.
Proof.
  exact (@isValidCommand_reports_once_iff_false sample_join cmd_missing_id
           acme (Normal (false, cmd_missing_id))
           (report (requirestring "command") acme) eq_refl).
Defined.

(** [isValidCommand] throws exactly when the candidate gets past the checks
    of its emptiness, [command], [title] and [category] and its [icon] is
    [null]; what it throws is a TypeError, and nothing has been reported. *)
Theorem isValidCommand_throws_iff join c u :
  (exists x u', isValidCommand join c u = (Throw x, u'))
  <-> passesChecks c /\ prop c "icon" = VNull.
Proof.
  split.
  - intros (x & u' & E). apply isValidCommand_outcome in E.
    inversion E; subst. auto.
  - intros [Hp Hn]. exists TypeError, u.
    now apply Outcome_complete, OutcomeThrown.
Qed.

(** A candidate with a string [command] whose [title] is missing or not a
    string is refused with exactly one error, [requirestring] for [title],
    whatever its other properties. *)
Theorem missing_title_reported join c u :
  typeof (prop c "command") = TString ->
  typeof (prop c "title") <> TString ->
  rejectedWith join c u [requirestring "title"]
  /\ cites "title" (requirestring "title") = true.
Proof.
  intros Hc Ht. split; [| reflexivity].
  apply refusal_rejectedWith, RefusedTitle; auto.
  now apply string_field_truthy with "command".
Qed.

Lemma missing_title_reported_witness :
  rejectedWith sample_join cmd_untitled acme [requirestring "title"]
  /\ cites "title" (requirestring "title") = true.
Proof.
  apply missing_title_reported; [reflexivity | vm_compute; discriminate].
Defined.

(** A candidate that gets past the checks of [command], [title] and
    [category] and whose [icon] is present, not [null], and neither a string
    nor themable is refused with exactly one error, [opticon]. *)
Theorem bad_icon_reported join c u :
  passesChecks c ->
  prop c "icon" <> VNull ->
  iconOk (prop c "icon") = false ->
  rejectedWith join c u [opticon]
  /\ cites "icon" opticon = true.
Proof.
  intros Hp Hn Hok. split; [| reflexivity].
  apply refusal_rejectedWith, RefusedIcon; auto;
    destruct (prop c "icon"); simpl in *; congruence.
Qed.

Lemma bad_icon_reported_witness :
  rejectedWith sample_join cmd_go_icon_7 acme [opticon]
  /\ cites "icon" opticon = true.
Proof.
  apply bad_icon_reported;
    [repeat split; auto | vm_compute; discriminate | reflexivity].
Defined.

(** ** [isValidCommand]: what an accepted candidate looks like *)

Lemma passesChecks_defined c : passesChecks c -> exists k, prop c k <> VUndefined.
Proof.
  intros (_ & Hc & _). exists "command". intros E. rewrite E in Hc.
  discriminate.
Qed.

Lemma passesChecks_setProp_icon c v :
  passesChecks c -> passesChecks (setProp c "icon" v).
Proof.
  intros (Ht & Hc & Hti & Hca). unfold passesChecks.
  now rewrite truthy_setProp, !prop_setProp_other by discriminate.
Qed.

(** The icon of a candidate after normalisation: absent as before, a
    string, or a themable icon whose [dark] and [light] are strings. *)
Lemma Absolute_icon join root c c' :
  passesChecks c ->
  Absolute join root c c' ->
  passesChecks c'
  /\ prop c' "icon" <> VNull
  /\ iconOk (prop c' "icon") = true.
Proof.
  intros Hp Ha. pose proof (passesChecks_defined Hp) as Hdef.
  destruct Ha as [Hu | p Hp' | d l Hth Hd Hl].
  - rewrite Hu. repeat split; auto; try apply Hp. discriminate.
  - split; [now apply passesChecks_setProp_icon |].
    rewrite prop_setProp_same by assumption.
    split; [discriminate | reflexivity].
  - split; [now apply passesChecks_setProp_icon |].
    rewrite prop_setProp_same by assumption.
    apply isThemableIcon_object in Hth as (ps & d0 & l0 & E & _ & _).
    rewrite E. simpl. split; [discriminate |].
    rewrite truthy_isThemableIcon. simpl.
    rewrite lookup_assign_other by discriminate.
    now rewrite !lookup_assign_same.
Qed.

Lemma passesChecks_shape c :
  passesChecks c -> iconOk (prop c "icon") = true -> acceptedShape c.
Proof. intros (_ & Hc & Hti & Hca) Hok. repeat split; assumption. Qed.

(** When [isValidCommand] returns true, the candidate as it leaves the call
    has a string [command], a string [title], a [category] that is a string
    or falsy, and an [icon] that is absent, a string, or a themable icon
    with string [dark] and [light]: normalisation keeps the candidate
    valid. *)
Theorem accepted_candidate_shape join c u c' u' :
  isValidCommand join c u = (Normal (true, c'), u') ->
  acceptedShape c'.
Proof.
  intros E. apply isValidCommand_outcome in E.
  inversion E as [ | | c0 Hp Ha]; subst.
  destruct (Absolute_icon Hp Ha) as (Hp' & _ & Hok).
  now apply passesChecks_shape.
Qed.

Lemma accepted_candidate_shape_witness : acceptedShape cmd_go_icon_absolute.
Proof.
  exact (@accepted_candidate_shape sample_join cmd_go_icon acme
           cmd_go_icon_absolute acme eq_refl).
Defined.

Lemma assign_assign k v w ps : assign k w (assign k v ps) = assign k w ps.
Proof.
  induction ps as [| [k' v'] ps IH]; simpl.
  - now rewrite String.eqb_refl.
  - destruct (k =? k') eqn:E; simpl.
    + now rewrite String.eqb_refl.
    + now rewrite E, IH.
Qed.

Lemma setProp_setProp x k v w : setProp (setProp x k v) k w = setProp x k w.
Proof. destruct x; simpl; try reflexivity. now rewrite assign_assign. Qed.

(** A candidate that gets past the checks and whose icon is absent, a
    string or themable is accepted, and comes out normalised. *)
Lemma passes_accepted join c u :
  passesChecks c ->
  iconOk (prop c "icon") = true ->
  exists c',
    isValidCommand join c u = (Normal (true, c'), u)
    /\ Absolute join (extensionFolderPath (description u)) c c'.
Proof.
  intros Hp Hok.
  apply iconOk_not_refused in Hok as [Hu | [Hs | Hth]].
  - exists c. split; [| now apply AbsoluteAbsent].
    apply Outcome_complete, OutcomeAccepted; auto. now apply AbsoluteAbsent.
  - apply typeof_string_inv in Hs as [p Hs].
    eexists. split; [| now apply AbsolutePath; eauto].
    apply Outcome_complete, OutcomeAccepted; auto. now apply AbsolutePath.
  - destruct (isThemableIcon_fields _ Hth) as (d & l & Hd & Hl).
    eexists. split; [| now apply AbsoluteThemable with (d := d) (l := l)].
    apply Outcome_complete, OutcomeAccepted; auto.
    now apply AbsoluteThemable.
Qed.

(** The icon of a candidate after normalisation, case by case. *)
Lemma Absolute_values join root c c' :
  (exists k, prop c k <> VUndefined) ->
  Absolute join root c c' ->
  (forall p, prop c "icon" = VString p ->
             c' = setProp c "icon" (VString (join root p)))
  /\ (forall d l,
        prop (prop c "icon") "dark" = VString d ->
        prop (prop c "icon") "light" = VString l ->
        prop (prop c' "icon") "dark" = VString (join root d)
        /\ prop (prop c' "icon") "light" = VString (join root l))
  /\ (prop c "icon" = VUndefined -> c' = c).
Proof.
  intros Hdef Ha.
  destruct Ha as [Hu | p0 Hp | d0 l0 Hth Hd Hl].
  - split; [| split].
    + intros p Hp. congruence.
    + intros d l Hd _. rewrite Hu in Hd. discriminate.
    + reflexivity.
  - split; [| split].
    + intros p Hp'. congruence.
    + intros d l Hd _. rewrite Hp in Hd. discriminate.
    + intros Hu. congruence.
  - assert (Hidef : exists k, prop (prop c "icon") k <> VUndefined).
    { exists "dark". rewrite Hd. discriminate. }
    split; [| split].
    + intros p Hp. rewrite Hp in Hd. discriminate.
    + intros d l Hd' Hl'. rewrite prop_setProp_same by assumption.
      split.
      * rewrite prop_setProp_other by discriminate.
        rewrite prop_setProp_same by assumption. congruence.
      * rewrite prop_setProp_same; [congruence |].
        exists "dark". rewrite prop_setProp_same by assumption. discriminate.
    + intros Hu. rewrite Hu in Hd. discriminate.
Qed.

(** A candidate that [isValidCommand] accepted is accepted again, without
    any report, when it is validated a second time, and normalisation is
    applied again: a string icon [p] ends up as [join(R, join(R, p))], the
    [dark] and [light] of a themable icon are joined twice in the same way,
    and a candidate without icon comes out as it went in. For a string icon
    the second pass changes nothing exactly when
    [join(R, join(R, p)) = join(R, p)]. *)
Theorem revalidation_accepts_and_joins_again join c u c' u' :
  isValidCommand join c u = (Normal (true, c'), u') ->
  let R := extensionFolderPath (description u) in
  exists c'',
    isValidCommand join c' u' = (Normal (true, c''), u')
    /\ (forall p, prop c "icon" = VString p ->
                  prop c'' "icon" = VString (join R (join R p))
                  /\ (c'' = c' <-> join R (join R p) = join R p))
    /\ (forall d l,
          prop (prop c "icon") "dark" = VString d ->
          prop (prop c "icon") "light" = VString l ->
          prop (prop c'' "icon") "dark" = VString (join R (join R d))
          /\ prop (prop c'' "icon") "light" = VString (join R (join R l)))
    /\ (prop c "icon" = VUndefined -> c'' = c).
Proof.
  intros E R. apply isValidCommand_outcome in E.
  inversion E as [ | | c0 Hp Ha]; subst. fold R in Ha.
  destruct (Absolute_icon Hp Ha) as (Hp' & _ & Hok').
  destruct (passes_accepted join u' Hp' Hok') as (c'' & E2 & Ha2).
  fold R in Ha2.
  pose proof (passesChecks_defined Hp) as Hdef.
  pose proof (passesChecks_defined Hp') as Hdef'.
  destruct (Absolute_values Hdef Ha) as (Hs1 & Ht1 & Hu1).
  destruct (Absolute_values Hdef' Ha2) as (Hs2 & Ht2 & Hu2).
  exists c''. split; [assumption | split; [| split]].
  - intros p Hpath. pose proof (Hs1 p Hpath) as Ec'.
    assert (Hicon' : prop c' "icon" = VString (join R p))
      by (rewrite Ec'; now apply prop_setProp_same).
    pose proof (Hs2 _ Hicon') as Ec''.
    split.
    + rewrite Ec''. now apply prop_setProp_same.
    + rewrite Ec'', Ec', setProp_setProp. split.
      * intros H. apply (f_equal (fun x => prop x "icon")) in H.
        rewrite !prop_setProp_same in H by assumption. congruence.
      * now intros ->.
  - intros d l Hd Hl. destruct (Ht1 d l Hd Hl) as [Hd' Hl'].
    now apply Ht2.
  - intros Hu. pose proof (Hu1 Hu) as ->. now apply Hu2.
Qed.

Lemma revalidation_accepts_and_joins_again_witness :
  exists c'',
    isValidCommand sample_join cmd_go_icon_absolute acme
    = (Normal (true, c''), acme)
    /\ (forall p, prop cmd_go_icon "icon" = VString p ->
                  prop c'' "icon"
                  = VString (sample_join "/ext/acme"
                               (sample_join "/ext/acme" p))
                  /\ (c'' = cmd_go_icon_absolute
                      <-> sample_join "/ext/acme" (sample_join "/ext/acme" p)
                          = sample_join "/ext/acme" p))
    /\ (forall d l,
          prop (prop cmd_go_icon "icon") "dark" = VString d ->
          prop (prop cmd_go_icon "icon") "light" = VString l ->
          prop (prop c'' "icon") "dark"
          = VString (sample_join "/ext/acme" (sample_join "/ext/acme" d))
          /\ prop (prop c'' "icon") "light"
             = VString (sample_join "/ext/acme" (sample_join "/ext/acme" l)))
    /\ (prop cmd_go_icon "icon" = VUndefined -> c'' = cmd_go_icon).
Proof.
  exact (@revalidation_accepts_and_joins_again sample_join cmd_go_icon acme
           cmd_go_icon_absolute acme eq_refl).
Defined.

(** The answer of [isValidCommand] and the messages it reports do not
    depend on any property of the candidate other than [command], [title],
    [category] and [icon]: such a property can be added or changed at
    will. *)
Theorem unread_property_irrelevant join c k w u :
  ~ In k ["command"; "title"; "category"; "icon"] ->
  answer (fst (isValidCommand join (setProp c k w) u))
  = answer (fst (isValidCommand join c u))
  /\ snd (isValidCommand join (setProp c k w) u)
     = snd (isValidCommand join c u).
Proof.
  intros Hk. apply isValidCommand_determined.
  - apply truthy_setProp.
  - intros k' Hk'. apply prop_setProp_other. intros ->. contradiction.
Qed.

Lemma unread_property_irrelevant_witness :
  answer (fst (isValidCommand sample_join
                 (setProp cmd_go_icon "keybinding" (VNumber 7)) acme))
  = answer (fst (isValidCommand sample_join cmd_go_icon acme))
  /\ snd (isValidCommand sample_join
            (setProp cmd_go_icon "keybinding" (VNumber 7)) acme)
     = snd (isValidCommand sample_join cmd_go_icon acme).
Proof.
  apply unread_property_irrelevant. simpl.
  intros [H | [H | [H | [H | []]]]]; discriminate.
Defined.

(** ** The handler: one candidate *)

(** [handleCommand] in any state of the registry, by the verdict of the
    candidate. *)
Lemma handleCommand_general join c u reg :
  handleCommand join c u reg
  = match verdict join (c, description u) with
    | Normal (true, c') =>
        (fst (attempt (Push c') reg),
         reports (emitted join (c, description u)) u,
         snd (attempt (Push c') reg))
    | Normal (false, _) =>
        (Normal tt, reports (emitted join (c, description u)) u, reg)
    | Throw e =>
        (Throw e, reports (emitted join (c, description u)) u, reg)
    end.
Proof.
  unfold handleCommand. rewrite isValidCommand_run.
  destruct (verdict join (c, description u)) as [[[] c'] | e];
    try reflexivity.
  now destruct (attempt (Push c') reg).
Qed.

(** A verdict comes with no message when it is true or a throw, and with
    exactly one when it is false; a true verdict carries a candidate of the
    accepted shape. *)
Lemma verdict_emitted join cd :
  match verdict join cd with
  | Normal (true, c') => emitted join cd = [] /\ acceptedShape c'
  | Normal (false, _) => length (emitted join cd) = 1
  | Throw _ => emitted join cd = []
  end.
Proof.
  destruct cd as [c d].
  pose (u0 := {| description := d; value := VUndefined; collector := [] |}).
  pose proof (isValidCommand_run join c u0) as E. simpl in E.
  apply isValidCommand_outcome in E.
  remember (verdict join (c, d)) as r eqn:Hr.
  remember (reports (emitted join (c, d)) u0) as u1 eqn:Hu1.
  destruct E as [m Hm | Hp Hn | c' Hp Ha].
  - apply (f_equal collector) in Hu1. simpl in Hu1. now rewrite <- Hu1.
  - apply (f_equal collector) in Hu1. simpl in Hu1. now rewrite <- Hu1.
  - split.
    + apply (f_equal collector) in Hu1. simpl in Hu1. now rewrite <- Hu1.
    + destruct (Absolute_icon Hp Ha) as (Hp' & _ & Hok).
      now apply passesChecks_shape.
Qed.

Lemma attempt_push_registry x reg :
  frozen (snd (attempt (Push x) reg)) = frozen reg
  /\ exists added,
       items (snd (attempt (Push x) reg)) = items reg ++ added
       /\ (frozen reg = true -> added = [])
       /\ (frozen reg = false ->
           added = [x] /\ fst (attempt (Push x) reg) = Normal tt)
       /\ (frozen reg = true -> fst (attempt (Push x) reg) = Throw TypeError).
Proof.
  unfold attempt. destruct (frozen reg) eqn:Hf; simpl.
  - split; [assumption |]. exists []. rewrite app_nil_r.
    repeat split; auto; discriminate.
  - split; [reflexivity |]. exists [x]. repeat split; auto; discriminate.
Qed.

(** ** The handler: the loops *)

Lemma reports_declaring msgs v e :
  reports msgs (declaring v e) = declaring v (reports msgs e).
Proof. reflexivity. Qed.

Lemma handleCommand_declaring join c v e reg :
  handleCommand join c (declaring v e) reg
  = match handleCommand join c e reg with
    | (r, e', reg') => (r, declaring v e', reg')
    end.
Proof.
  rewrite !handleCommand_general. simpl.
  destruct (verdict join (c, description e)) as [[[] c'] | x]; reflexivity.
Qed.

Lemma forCommands_declaring join l v e reg :
  forCommands join l (declaring v e) reg
  = match forCommands join l e reg with
    | (r, e', reg') => (r, declaring v e', reg')
    end.
Proof.
  revert e reg. induction l as [| c l IH]; intros e reg; simpl.
  - reflexivity.
  - rewrite handleCommand_declaring.
    destruct (handleCommand join c e reg) as [[[[] | x] e'] reg'];
      [apply IH | reflexivity].
Qed.

Lemma handleCommand_value join c u reg :
  value (snd (fst (handleCommand join c u reg))) = value u
  /\ description (snd (fst (handleCommand join c u reg))) = description u.
Proof.
  rewrite handleCommand_general.
  destruct (verdict join (c, description u)) as [[[] c'] | x]; auto.
Qed.

Lemma forCommands_value join l u reg :
  value (snd (fst (forCommands join l u reg))) = value u
  /\ description (snd (fst (forCommands join l u reg))) = description u.
Proof.
  revert u reg. induction l as [| c l IH]; intros u reg; simpl; auto.
  pose proof (handleCommand_value join c u reg) as [Hv Hd].
  destruct (handleCommand join c u reg) as [[[[] | x] u'] reg']; simpl in *.
  - destruct (IH u' reg') as [Hv' Hd']. split; congruence.
  - auto.
Qed.

(** The candidate that a call leaves, by the verdict of the candidate. *)
Lemma leftByCommand_verdict join c u :
  leftByCommand join c u
  = match verdict join (c, description u) with
    | Normal (_, c') => c'
    | Throw _ => c
    end.
Proof.
  unfold leftByCommand. rewrite isValidCommand_run.
  now destruct (verdict join (c, description u)) as [[b c'] | x].
Qed.

Lemma leftByCommand_declaring join c v e :
  leftByCommand join c (declaring v e) = leftByCommand join c e.
Proof. now rewrite !leftByCommand_verdict. Qed.

Lemma leftByCommands_declaring join l v e reg :
  leftByCommands join l (declaring v e) reg = leftByCommands join l e reg.
Proof.
  revert e reg. induction l as [| c l IH]; intros e reg; simpl.
  - reflexivity.
  - rewrite leftByCommand_declaring, handleCommand_declaring.
    destruct (handleCommand join c e reg) as [[[[] | x] e'] reg'];
      [now rewrite IH | reflexivity].
Qed.

(** Rewriting the icon does not make an array of a candidate, nor anything
    else of an array. *)
Lemma leftByCommand_array join c u :
  (exists l, leftByCommand join c u = VArray l) <-> (exists l, c = VArray l).
Proof.
  unfold leftByCommand.
  destruct (isValidCommand join c u) as [r u'] eqn:E.
  apply isValidCommand_outcome in E.
  destruct E as [m Hm | Hp Hn | c' Hp Ha]; try reflexivity.
  destruct Ha as [Hu | p Hpath | d l0 Hth Hd Hl]; try reflexivity;
    destruct c; simpl; try reflexivity;
    split; intros [l1 H]; discriminate.
Qed.

Lemma candidatesOf_leftByExtension join e reg :
  candidatesOf (leftByExtension join e reg)
  = leftByCommands join (candidatesOf (value e)) e reg.
Proof.
  unfold leftByExtension.
  destruct (value e) as [ | | b | n | s | l | ps] eqn:Hv;
    try reflexivity;
    match goal with
    | |- candidatesOf (leftByCommand join ?v e) = _ =>
        assert (Hna : ~ exists l, leftByCommand join v e = VArray l)
          by (rewrite leftByCommand_array; intros [l H]; discriminate);
        assert (Hc : candidatesOf (leftByCommand join v e)
                     = [leftByCommand join v e])
          by (destruct (leftByCommand join v e); try reflexivity;
              exfalso; apply Hna; eauto);
        rewrite Hc; simpl;
        now destruct (handleCommand join v e reg) as [[[[] | x] e'] reg']
    end.
Qed.

Lemma forExtension_asArray join e reg :
  forExtension join (asArray e) reg
  = match forExtension join e reg with
    | (r, e', reg') => (r, asArray e', reg')
    end.
Proof.
  rewrite !forExtension_as_loop.
  change (value (asArray e)) with (VArray (candidatesOf (value e))).
  change (candidatesOf (VArray (candidatesOf (value e))))
    with (candidatesOf (value e)).
  unfold leftByExtension at 1.
  change (value (asArray e)) with (VArray (candidatesOf (value e))).
  cbv iota. unfold asArray at 1 2.
  rewrite forCommands_declaring, leftByCommands_declaring.
  destruct (forCommands join (candidatesOf (value e)) e reg) as [[r e'] reg'].
  unfold asArray. simpl. now rewrite candidatesOf_leftByExtension.
Qed.

(** An extension that declares a single command is handled as if it had
    declared the array holding just that command: the handler ends in the
    same way, leaves the same registry, and the same messages in the same
    collectors. *)
Theorem single_command_as_singleton_array join exts reg :
  commandsHandler join (map asArray exts) reg
  = match commandsHandler join exts reg with
    | (r, exts', reg') => (r, map asArray exts', reg')
    end.
Proof.
  unfold commandsHandler.
  assert (H : forall reg,
             forExtensions join (map asArray exts) reg
             = match forExtensions join exts reg with
               | (r, exts', reg') => (r, map asArray exts', reg')
               end).
  { induction exts as [| e exts IH]; intros reg0; simpl; [reflexivity |].
    rewrite forExtension_asArray.
    destruct (forExtension join e reg0) as [[[[] | x] e'] reg'].
    - rewrite IH.
      now destruct (forExtensions join exts reg') as [[r exts'] reg''].
    - reflexivity. }
  rewrite H.
  now destruct (forExtensions join exts reg) as [[[[] | x] exts'] reg'].
Qed.

(** ** The handler: messages *)

Lemma forCommands_user join l u reg u' reg' :
  forCommands join l u reg = (Normal tt, u', reg') ->
  u' = reports (flat_map (fun c => emitted join (c, description u)) l) u.
Proof.
  revert u reg. induction l as [| c l IH]; intros u reg E; simpl in E.
  - injection E as <- <-. simpl. now rewrite reports_nil.
  - pose proof (handleCommand_general join c u reg) as Hg.
    destruct (handleCommand join c u reg) as [[[[] | x] u1] reg1];
      [| discriminate].
    apply IH in E. subst u'.
    assert (Hu1 : u1 = reports (emitted join (c, description u)) u).
    { destruct (verdict join (c, description u)) as [[[] c'] | x];
        congruence. }
    subst u1. simpl. now rewrite reports_app.
Qed.

Lemma leftByCommands_normal join l u reg u' reg' :
  forCommands join l u reg = (Normal tt, u', reg') ->
  leftByCommands join l u reg = map (leftByVerdict join (description u)) l.
Proof.
  revert u reg. induction l as [| c l IH]; intros u reg E; simpl in *.
  - reflexivity.
  - rewrite leftByCommand_verdict. fold (leftByVerdict join (description u) c).
    pose proof (handleCommand_value join c u reg) as [_ Hd].
    destruct (handleCommand join c u reg) as [[[[] | x] u1] reg1];
      [| discriminate].
    simpl in Hd. now rewrite (IH _ _ E), Hd.
Qed.

Lemma leftByExtension_normal join e reg e' reg' :
  forCommands join (candidatesOf (value e)) e reg = (Normal tt, e', reg') ->
  leftByExtension join e reg = normalised join e.
Proof.
  unfold leftByExtension, normalised. intros E.
  destruct (value e); simpl in E;
    try (now rewrite leftByCommand_verdict).
  now rewrite (leftByCommands_normal _ _ _ _ E).
Qed.

(** When the handler completes, every extension of the batch comes out with
    its description as it was, with its collector extended by the messages
    of its own candidates, in their order, and by nothing else, and with its
    declared value holding every candidate as [isValidCommand] left it, the
    icon of the accepted ones rewritten: no message goes to another
    extension's collector. *)
Theorem messages_go_to_their_extension join exts reg exts' reg' :
  commandsHandler join exts reg = (Normal tt, exts', reg') ->
  exts'
  = map (fun e => declaring (normalised join e) (reports (emittedBy join e) e))
      exts.
Proof.
  unfold commandsHandler.
  destruct (forExtensions join exts reg) as [[[[] | x] exts0] reg0] eqn:E;
    intros H; [| discriminate].
  injection H as <- _. clear reg'.
  revert reg exts0 reg0 E.
  induction exts as [| e exts IH]; intros reg exts0 reg0 E; simpl in E.
  - now injection E as <- _.
  - rewrite forExtension_as_loop in E.
    destruct (forCommands join (candidatesOf (value e)) e reg)
      as [[[[] | x] e1] reg1] eqn:E1; [| discriminate].
    rewrite (@leftByExtension_normal join e reg e1 reg1 E1) in E.
    apply forCommands_user in E1.
    destruct (forExtensions join exts reg1) as [[r2 exts2] reg2] eqn:E2.
    injection E as -> <- <-.
    apply IH in E2. subst. reflexivity.
Qed.

Lemma messages_go_to_their_extension_witness :
  sample_batch_after
  = map (fun e => declaring (normalised sample_join e)
                    (reports (emittedBy sample_join e) e))
      sample_batch.
Proof.
  exact (@messages_go_to_their_extension sample_join sample_batch commands0
           _ {| items := [cmd_go_icon_absolute; cmd_go; cmd_foo_bar];
                frozen := true |} eq_refl).
Defined.

(** ** The handler: the registry in any state *)

Lemma handleCommand_registry join c u reg :
  frozen (snd (handleCommand join c u reg)) = frozen reg
  /\ exists added,
       items (snd (handleCommand join c u reg)) = items reg ++ added
       /\ (frozen reg = true -> added = [])
       /\ Forall acceptedShape added.
Proof.
  rewrite handleCommand_general.
  pose proof (verdict_emitted join (c, description u)) as Hv.
  destruct (verdict join (c, description u)) as [[[] c'] | x]; simpl.
  - destruct (attempt_push_registry c' reg)
      as (Hf & added & Hi & Hfro & Hop & _).
    split; [assumption |]. exists added. repeat split; auto.
    destruct (frozen reg) eqn:Hfr.
    + rewrite (Hfro eq_refl). constructor.
    + destruct (Hop eq_refl) as [-> _]. constructor; [apply Hv | constructor].
  - split; [reflexivity |]. exists []. rewrite app_nil_r. auto.
  - split; [reflexivity |]. exists []. rewrite app_nil_r. auto.
Qed.

Lemma forCommands_registry join l u reg :
  frozen (snd (forCommands join l u reg)) = frozen reg
  /\ exists added,
       items (snd (forCommands join l u reg)) = items reg ++ added
       /\ (frozen reg = true -> added = [])
       /\ Forall acceptedShape added.
Proof.
  revert u reg. induction l as [| c l IH]; intros u reg; simpl.
  - split; [reflexivity |]. exists []. rewrite app_nil_r. auto.
  - pose proof (handleCommand_registry join c u reg)
      as (Hf & a1 & Hi & Hfro & Hsh).
    destruct (handleCommand join c u reg) as [[[[] | x] u1] reg1];
      simpl in *.
    + destruct (IH u1 reg1) as (Hf2 & a2 & Hi2 & Hfro2 & Hsh2).
      split; [congruence |]. exists (a1 ++ a2).
      rewrite Hi2, Hi, app_assoc. repeat split.
      * intros Hfr. rewrite (Hfro Hfr), Hfro2; [reflexivity | congruence].
      * apply Forall_app. auto.
    + split; [assumption |]. exists a1. auto.
Qed.

Lemma forExtensions_registry join exts reg :
  frozen (snd (forExtensions join exts reg)) = frozen reg
  /\ exists added,
       items (snd (forExtensions join exts reg)) = items reg ++ added
       /\ (frozen reg = true -> added = [])
       /\ Forall acceptedShape added.
Proof.
  revert reg. induction exts as [| e exts IH]; intros reg; simpl.
  - split; [reflexivity |]. exists []. rewrite app_nil_r. auto.
  - rewrite forExtension_as_loop.
    pose proof (forCommands_registry join (candidatesOf (value e)) e reg)
      as (Hf & a1 & Hi & Hfro & Hsh).
    destruct (forCommands join (candidatesOf (value e)) e reg)
      as [[[[] | x] e1] reg1]; simpl in *.
    + destruct (IH reg1) as (Hf2 & a2 & Hi2 & Hfro2 & Hsh2).
      destruct (forExtensions join exts reg1) as [[r2 exts2] reg2];
        simpl in *.
      split; [congruence |]. exists (a1 ++ a2).
      rewrite Hi2, Hi, app_assoc. repeat split.
      * intros Hfr. rewrite (Hfro Hfr), Hfro2; [reflexivity | congruence].
      * apply Forall_app. auto.
    + split; [assumption |]. exists a1. auto.
Qed.

(** In whatever state it finds the registry and however it ends, the handler
    only appends: the entries that were there are still there, in the same
    places, followed by the new ones; and it never reopens a frozen
    registry. *)
Theorem handler_only_appends join exts reg r exts' reg' :
  commandsHandler join exts reg = (r, exts', reg') ->
  (exists added, items reg' = items reg ++ added)
  /\ (frozen reg = true -> frozen reg' = true).
Proof.
  unfold commandsHandler.
  pose proof (forExtensions_registry join exts reg) as (Hf & a & Hi & _ & _).
  destruct (forExtensions join exts reg) as [[[[] | x] exts0] reg0];
    simpl in *; intros E; injection E as <- <- <-; simpl.
  - split; [now exists a | reflexivity].
  - split; [now exists a | congruence].
Qed.

Lemma handler_only_appends_witness :
  (exists added,
     items {| items := [cmd_foo_bar; cmd_go]; frozen := true |}
     = items {| items := [cmd_foo_bar]; frozen := false |} ++ added)
  /\ (frozen {| items := [cmd_foo_bar]; frozen := false |} = true ->
      frozen {| items := [cmd_foo_bar; cmd_go]; frozen := true |} = true).
Proof.
  exact (@handler_only_appends sample_join [extension_at "/ext/acme" cmd_go]
           {| items := [cmd_foo_bar]; frozen := false |}
           (Normal tt) [extension_at "/ext/acme" cmd_go]
           {| items := [cmd_foo_bar; cmd_go]; frozen := true |} eq_refl).
Defined.

(** Every entry that the handler adds to the registry has the accepted
    shape: if the registry held only such entries before a batch, it holds
    only such entries after it, however the handler ends. *)
Theorem registry_entries_keep_shape join exts reg r exts' reg' :
  Forall acceptedShape (items reg) ->
  commandsHandler join exts reg = (r, exts', reg') ->
  Forall acceptedShape (items reg').
Proof.
  unfold commandsHandler. intros Hreg.
  pose proof (forExtensions_registry join exts reg) as (_ & a & Hi & _ & Hsh).
  destruct (forExtensions join exts reg) as [[[[] | x] exts0] reg0];
    simpl in *; intros E; injection E as <- <- <-; simpl;
    rewrite Hi; apply Forall_app; auto.
Qed.

Lemma registry_entries_keep_shape_witness :
  Forall acceptedShape [cmd_go_icon_absolute; cmd_go; cmd_foo_bar].
Proof.
  apply (@registry_entries_keep_shape sample_join sample_batch commands0
           (Normal tt)
           sample_batch_after
           {| items := [cmd_go_icon_absolute; cmd_go; cmd_foo_bar];
              frozen := true |}).
  - constructor.
  - reflexivity.
Defined.

(** ** The handler on a registry that is already frozen *)

Lemma forCommands_frozen join l u reg :
  frozen reg = true ->
  fst (fst (forCommands join l u reg)) = Normal tt
  <-> Forall (fun cd => answer (verdict join cd) = Normal false)
        (map (fun c => (c, description u)) l).
Proof.
  intros Hfr. revert u. induction l as [| c l IH]; intros u; simpl.
  - split; [constructor | reflexivity].
  - pose proof (handleCommand_general join c u reg) as Hg.
    pose proof (handleCommand_registry join c u reg)
      as (Hf1 & a & Hi & Hnil & _).
    pose proof (handleCommand_value join c u reg) as [_ Hd].
    destruct (handleCommand join c u reg) as [[r1 u1] reg1]; simpl in *.
    assert (Hreg1 : reg1 = reg).
    { destruct reg1, reg; simpl in *. rewrite (Hnil Hfr), app_nil_r in Hi.
      congruence. }
    subst reg1.
    destruct (verdict join (c, description u)) as [[[] c'] | x] eqn:Hv.
    + unfold attempt in Hg. rewrite Hfr in Hg. simpl in Hg.
      injection Hg as -> _. simpl.
      split; [discriminate |]. intros H. inversion H as [| ? ? Hc _]; subst.
      rewrite Hv in Hc. discriminate.
    + injection Hg as -> _. rewrite (IH u1), Hd.
      split.
      * intros H. constructor; [now rewrite Hv | assumption].
      * intros H. now inversion H.
    + injection Hg as -> _. simpl.
      split; [discriminate |]. intros H. inversion H as [| ? ? Hc _]; subst.
      rewrite Hv in Hc. discriminate.
Qed.

Lemma forCommands_frozen_registry join l u reg :
  frozen reg = true -> snd (forCommands join l u reg) = reg.
Proof.
  intros Hfr.
  pose proof (forCommands_registry join l u reg) as (Hf & a & Hi & Hnil & _).
  destruct (snd (forCommands join l u reg)), reg; simpl in *.
  rewrite (Hnil Hfr), app_nil_r in Hi. congruence.
Qed.

Lemma forExtensions_frozen join exts reg :
  frozen reg = true ->
  fst (fst (forExtensions join exts reg)) = Normal tt
  <-> Forall (fun cd => answer (verdict join cd) = Normal false)
        (arrivals exts).
Proof.
  intros Hfr. induction exts as [| e exts IH]; simpl.
  - split; [constructor | reflexivity].
  - rewrite forExtension_as_loop, Forall_app.
    pose proof (@forCommands_frozen join (candidatesOf (value e)) e reg Hfr)
      as Hc.
    pose proof (@forCommands_frozen_registry join (candidatesOf (value e)) e
                  reg Hfr) as Hr.
    destruct (forCommands join (candidatesOf (value e)) e reg)
      as [[[[] | x] e1] reg1]; simpl in *; subst.
    + destruct (forExtensions join exts reg) as [[r2 exts2] reg2];
        simpl in *.
      rewrite IH. split; [intros H; split; [now apply Hc | assumption] |].
      now intros [_ H].
    + split; [discriminate |]. intros [H _]. apply Hc in H. discriminate.
Qed.

(** A run of the handler on a registry that is already frozen leaves its
    content as it is. The run completes exactly when [isValidCommand]
    returns false for every candidate of the batch; otherwise it throws, a
    TypeError at the first accepted candidate if none threw before it. *)
Theorem handler_on_frozen_registry join exts reg r exts' reg' :
  frozen reg = true ->
  commandsHandler join exts reg = (r, exts', reg') ->
  items reg' = items reg
  /\ frozen reg' = true
  /\ (r = Normal tt
      <-> Forall (fun cd => answer (verdict join cd) = Normal false)
            (arrivals exts)).
Proof.
  intros Hfr. unfold commandsHandler.
  pose proof (@forExtensions_frozen join exts reg Hfr) as Hiff.
  pose proof (forExtensions_registry join exts reg) as (Hf & a & Hi & Hnil & _).
  rewrite (Hnil Hfr), app_nil_r in Hi.
  destruct (forExtensions join exts reg) as [[[[] | x] exts0] reg0];
    simpl in *; intros E; injection E as <- <- <-; simpl.
  - repeat split; auto. now apply Hiff.
  - repeat split; try congruence. apply Hiff.
Qed.

Lemma handler_on_frozen_registry_witness :
  items {| items := [cmd_foo_bar]; frozen := true |} = [cmd_foo_bar]
  /\ frozen {| items := [cmd_foo_bar]; frozen := true |} = true
  /\ (Throw TypeError = Normal tt
      <-> Forall (fun cd => answer (verdict sample_join cd) = Normal false)
            (arrivals [extension_at "/ext/acme" (VArray [cmd_missing_id; cmd_go])])).
Proof.
  exact (@handler_on_frozen_registry sample_join
           [extension_at "/ext/acme" (VArray [cmd_missing_id; cmd_go])]
           {| items := [cmd_foo_bar]; frozen := true |}
           (Throw TypeError)
           [reports [requirestring "command"]
              (extension_at "/ext/acme" (VArray [cmd_missing_id; cmd_go]))]
           {| items := [cmd_foo_bar]; frozen := true |}
           eq_refl eq_refl).
Defined.

(** ** The handler cut short *)

Lemma forExtensions_thrown join exts reg x exts' reg' :
  forExtensions join exts reg = (Throw x, exts', reg') ->
  exists done e after done' reg1 e',
    exts = done ++ e :: after
    /\ forExtensions join done reg = (Normal tt, done', reg1)
    /\ forExtension join e reg1 = (Throw x, e', reg')
    /\ exts' = done' ++ e' :: after.
Proof.
  revert reg exts'. induction exts as [| e exts IH]; intros reg exts' E;
    simpl in E; [discriminate |].
  destruct (forExtension join e reg) as [[[[] | x1] e1] reg1] eqn:E1.
  - destruct (forExtensions join exts reg1) as [[r2 exts2] reg2] eqn:E2.
    injection E as -> <- <-.
    apply IH in E2
      as (done & e0 & after & done' & reg0 & e0' & -> & Hdone & He0 & ->).
    exists (e :: done), e0, after, (e1 :: done'), reg0, e0'.
    simpl. rewrite E1, Hdone. auto.
  - injection E as <- <- <-.
    exists [], e, exts, [], reg, e1. auto.
Qed.

(** When the handler throws, it stops where it is. The batch splits into
    the extensions handled to completion, the one in whose candidates the
    throw arose, and the extensions after it; these last come out exactly
    as they went in, no candidate of theirs validated and nothing reported
    to their collectors, and the registry is not frozen by this run. *)
Theorem handler_throw_leaves_rest_untouched join exts reg x exts' reg' :
  commandsHandler join exts reg = (Throw x, exts', reg') ->
  frozen reg' = frozen reg
  /\ exists done e after done' reg1 e',
       exts = done ++ e :: after
       /\ forExtensions join done reg = (Normal tt, done', reg1)
       /\ forExtension join e reg1 = (Throw x, e', reg')
       /\ exts' = done' ++ e' :: after.
Proof.
  unfold commandsHandler.
  pose proof (forExtensions_registry join exts reg) as (Hf & _).
  destruct (forExtensions join exts reg) as [[[[] | x0] exts0] reg0] eqn:E;
    intros H; [discriminate |].
  injection H as -> <- <-. split; [assumption |].
  now apply forExtensions_thrown in E.
Qed.

Lemma handler_throw_leaves_rest_untouched_witness :
  frozen {| items := [cmd_go]; frozen := false |} = frozen commands0
  /\ exists done e after done' reg1 e',
       [extension_at "/ext/acme" (VArray [cmd_go; cmd_go_icon_null]); foo]
       = done ++ e :: after
       /\ forExtensions sample_join done commands0 = (Normal tt, done', reg1)
       /\ forExtension sample_join e reg1
          = (Throw TypeError, e', {| items := [cmd_go]; frozen := false |})
       /\ [extension_at "/ext/acme" (VArray [cmd_go; cmd_go_icon_null]); foo]
          = done' ++ e' :: after.
Proof.
  exact (@handler_throw_leaves_rest_untouched sample_join
           [extension_at "/ext/acme" (VArray [cmd_go; cmd_go_icon_null]); foo]
           commands0 TypeError
           [extension_at "/ext/acme" (VArray [cmd_go; cmd_go_icon_null]); foo]
           {| items := [cmd_go]; frozen := false |} eq_refl).
Defined.

(** ** The handler: batches compose *)

Lemma forExtensions_app join a b reg :
  forExtensions join (a ++ b) reg
  = match forExtensions join a reg with
    | (Normal _, a', reg1) =>
        match forExtensions join b reg1 with
        | (r, b', reg2) => (r, a' ++ b', reg2)
        end
    | (Throw x, a', reg1) => (Throw x, a' ++ b, reg1)
    end.
Proof.
  revert reg. induction a as [| e a IH]; intros reg; simpl.
  - now destruct (forExtensions join b reg) as [[r b'] reg2].
  - destruct (forExtension join e reg) as [[[[] | x] e'] reg'];
      [| reflexivity].
    rewrite IH.
    destruct (forExtensions join a reg') as [[[[] | x] a'] reg1];
      [| reflexivity].
    now destruct (forExtensions join b reg1) as [[r b'] reg2].
Qed.

(** Handling a batch is handling its extensions from left to right: for a
    batch split anywhere in two, the handler does to the first part what
    its loop does, the registry staying open, and then to the second part,
    from the registry and with the collectors that the first part left, what
    it does to a batch; if the first part throws, the second is not
    touched. *)
Theorem handler_splits_batch join a b reg :
  commandsHandler join (a ++ b) reg
  = match forExtensions join a reg with
    | (Normal _, a', reg1) =>
        match commandsHandler join b reg1 with
        | (r, b', reg2) => (r, a' ++ b', reg2)
        end
    | (Throw x, a', reg1) => (Throw x, a' ++ b, reg1)
    end.
Proof.
  unfold commandsHandler. rewrite forExtensions_app.
  destruct (forExtensions join a reg) as [[[[] | x] a'] reg1];
    [| reflexivity].
  now destruct (forExtensions join b reg1) as [[[[] | x] b'] reg2].
Qed.

(** ** The handler: every candidate is accounted for *)

Lemma length_reports msgs u :
  length (collector (reports msgs u)) = length (collector u) + length msgs.
Proof. simpl. apply length_app. Qed.

Lemma forCommands_accounted join l u reg u' reg' :
  frozen reg = false ->
  forCommands join l u reg = (Normal tt, u', reg') ->
  frozen reg' = false
  /\ length (items reg') + length (collector u')
     = length (items reg) + length (collector u) + length l.
Proof.
  revert u reg. induction l as [| c l IH]; intros u reg Hop E; simpl in E.
  - injection E as <- <-. split; [assumption |]. simpl. lia.
  - rewrite handleCommand_verdict in E by assumption.
    pose proof (verdict_emitted join (c, description u)) as Hv.
    destruct (verdict join (c, description u)) as [[[] c'] | x];
      [| | discriminate].
    + destruct Hv as [Hnil _].
      apply IH in E as [Hf Hl]; [| reflexivity].
      split; [assumption |]. rewrite Hl, length_reports, Hnil. simpl.
      rewrite length_app. simpl. lia.
    + apply IH in E as [Hf Hl]; [| assumption].
      split; [assumption |]. rewrite Hl, length_reports, Hv. simpl. lia.
Qed.

Lemma length_arrivals_cons e exts :
  length (arrivals (e :: exts))
  = length (candidatesOf (value e)) + length (arrivals exts).
Proof.
  unfold arrivals. simpl. now rewrite length_app, length_map.
Qed.

(** When the handler completes on an open registry, every candidate of the
    batch has ended in exactly one place: as one more entry of the registry,
    or as one more message in a collector. The entries and the messages
    gained are together as many as the candidates. *)
Theorem every_candidate_registered_or_reported join exts reg exts' reg' :
  frozen reg = false ->
  commandsHandler join exts reg = (Normal tt, exts', reg') ->
  length (items reg') + totalMessages exts'
  = length (items reg) + totalMessages exts + length (arrivals exts).
Proof.
  intros Hop. unfold commandsHandler.
  destruct (forExtensions join exts reg) as [[[[] | x] exts0] reg0] eqn:E;
    intros H; [| discriminate].
  injection H as <- <-. simpl.
  revert reg exts0 reg0 Hop E.
  induction exts as [| e exts IH]; intros reg exts0 reg0 Hop E; simpl in E.
  - injection E as <- <-. simpl. lia.
  - rewrite forExtension_as_loop in E.
    destruct (forCommands join (candidatesOf (value e)) e reg)
      as [[[[] | x] e1] reg1] eqn:E1; [| discriminate].
    apply forCommands_accounted in E1 as [Hop1 Hl1]; [| assumption].
    destruct (forExtensions join exts reg1) as [[r2 exts2] reg2] eqn:E2.
    injection E as -> <- <-.
    apply IH in E2; [| assumption].
    rewrite length_arrivals_cons. unfold totalMessages in *. simpl. lia.
Qed.

Lemma every_candidate_registered_or_reported_witness :
  3 + totalMessages
        sample_batch_after
  = 0 + totalMessages sample_batch + length (arrivals sample_batch).
Proof.
  exact (@every_candidate_registered_or_reported sample_join sample_batch
           commands0 _
           {| items := [cmd_go_icon_absolute; cmd_go; cmd_foo_bar];
              frozen := true |} eq_refl eq_refl).
Defined.

(** ** The handler: an extension that declares nothing *)

(** An extension whose declared value is empty ([undefined], [null],
    [false], [0] or the empty string) is handled as one empty candidate: its
    collector receives [nonempty], once, the registry is left alone and the
    handler goes on. An extension that declares the empty array is passed
    over in silence. *)
Theorem empty_declaration_handled join e reg :
  (truthy (value e) = false ->
   forExtension join e reg = (Normal tt, report nonempty e, reg))
  /\ (value e = VArray [] ->
      forExtension join e reg = (Normal tt, e, reg)).
Proof.
  split.
  - intros Ht. rewrite forExtension_as_loop.
    assert (Hc : candidatesOf (value e) = [value e])
      by (destruct (value e); try reflexivity; discriminate).
    pose proof (refusal_rejectedWith join e (RefusedEmpty _ Ht)) as Hr.
    assert (Hl : leftByExtension join e reg = value e).
    { unfold leftByExtension. unfold rejectedWith in Hr.
      destruct (value e); try discriminate;
        unfold leftByCommand; now rewrite Hr. }
    rewrite Hc, Hl. simpl.
    rewrite (handleCommand_rejected reg Hr). reflexivity.
  - intros Hv. unfold forExtension. rewrite Hv. simpl.
    destruct e; simpl in *. now subst.
Qed.

Lemma empty_declaration_handled_witness :
  forExtension sample_join (extension_at "/ext/acme" VNull) commands0
  = (Normal tt, report nonempty (extension_at "/ext/acme" VNull), commands0)
  /\ forExtension sample_join (extension_at "/ext/acme" (VArray [])) commands0
     = (Normal tt, extension_at "/ext/acme" (VArray []), commands0).
Proof.
  split.
  - apply (proj1 (empty_declaration_handled sample_join
                    (extension_at "/ext/acme" VNull) commands0)).
    reflexivity.
  - apply (proj2 (empty_declaration_handled sample_join
                    (extension_at "/ext/acme" (VArray [])) commands0)).
    reflexivity.
Defined.

(** ** The action of a registered command *)

Lemma Absolute_other_props join root c c' k :
  Absolute join root c c' -> k <> "icon" -> prop c' k = prop c k.
Proof. intros Ha Hk. destruct Ha; auto using prop_setProp_other. Qed.

(** The action built on a command as [isValidCommand] accepted it carries
    as id and label the [command] and [title] that the extension declared,
    is ordered last, and activates on [onCommand:] followed by that id:
    normalising the icon does not disturb them. *)
Theorem action_of_accepted_command join c u c' u' :
  isValidCommand join c u = (Normal (true, c'), u') ->
  VString (action_id (newCommandAction c')) = prop c "command"
  /\ VString (action_label (newCommandAction c')) = prop c "title"
  /\ activationEvent (newCommandAction c')
     = ("onCommand:" ++ action_id (newCommandAction c'))%string
  /\ action_order (newCommandAction c') = Number_MAX_VALUE.
Proof.
  intros E. apply isValidCommand_outcome in E.
  inversion E as [ | | c0 (_ & Hc & Ht & _) Ha]; subst.
  unfold newCommandAction; simpl.
  rewrite !(Absolute_other_props Ha) by discriminate.
  apply typeof_string_inv in Hc as [s ->].
  apply typeof_string_inv in Ht as [t ->].
  repeat split.
Qed.

Lemma action_of_accepted_command_witness :
  VString (action_id (newCommandAction cmd_go_icon_absolute))
  = prop cmd_go_icon "command"
  /\ VString (action_label (newCommandAction cmd_go_icon_absolute))
     = prop cmd_go_icon "title"
  /\ activationEvent (newCommandAction cmd_go_icon_absolute)
     = ("onCommand:" ++ action_id (newCommandAction cmd_go_icon_absolute))%string
  /\ action_order (newCommandAction cmd_go_icon_absolute) = Number_MAX_VALUE.
Proof.
  exact (@action_of_accepted_command sample_join cmd_go_icon acme
           cmd_go_icon_absolute acme eq_refl).
Defined.

(** Whatever the two services do, an invocation of the action calls the
    activation trigger exactly once and before anything else, and calls the
    dispatcher at most once, after it, with the id of the command and the
    arguments of the invocation; the dispatcher is called exactly when the
    activation is fulfilled. Calls made earlier stay in the log. *)
Theorem action_calls_in_order (World Result Error : Type)
    (activateByEvent : string -> World -> Promise unit Error * World)
    (executeCommand :
       string -> list Value -> World -> Promise Result Error * World)
    command args w log :
  let id := stringOf (prop command "command") in
  let ev := ("onCommand:" ++ id)%string in
  exists tail,
    snd (snd (actionCallback activateByEvent executeCommand
                (newCommandAction command) args (w, log)))
    = log ++ ActivateByEvent ev :: tail
    /\ (tail = [] \/ tail = [ExecuteCommand id args])
    /\ (tail = [ExecuteCommand id args]
        <-> exists w', activateByEvent ev w = (Fulfilled tt, w')).
Proof.
  intros id ev.
  unfold actionCallback, then_, callActivateByEvent, callExecuteCommand.
  rewrite activationEvent_newCommandAction. fold id. fold ev. simpl.
  fold id.
  destruct (activateByEvent ev w) as [[[] | reason |] w'] eqn:Hact.
  - destruct (executeCommand id args w') as [q w'']. simpl.
    exists [ExecuteCommand id args]. rewrite <- app_assoc. simpl.
    split; [reflexivity | split; [now right |]].
    split; [now exists w' | reflexivity].
  - exists []. simpl. split; [reflexivity | split; [now left |]].
    split; [discriminate | intros (w0 & H); discriminate].
  - exists []. simpl. split; [reflexivity | split; [now left |]].
    split; [discriminate | intros (w0 & H); discriminate].
Qed.
